(** * Trusted-proxy resolution: a shallow embedding of the Go package
      [trustedproxy] and the properties of its resolvers, its extractor,
      its middleware entry points and its trusted view. *)

From Stdlib Require Import ZArith Lia Ascii String.
From stdpp Require Import base option list strings gmap pretty.
From Equations Require Import Equations.

(** ** The Go run time, as far as the package relies on it *)

Module Go.

(** A call either returns a value or stops with a run-time panic
    (index out of range, nil dereference). *)
Inductive exec (A : Type) : Type :=
| Returns (a : A)
| Panics.
Arguments Returns {A} a.
Arguments Panics {A}.

Definition bind {A B} (m : exec A) (k : A -> exec B) : exec B :=
  match m with
  | Returns a => k a
  | Panics => Panics
  end.

(** [int] and [uint] are 64 bits wide. *)
Definition MaxInt : Z := 2 ^ 63 - 1.
Definition uint_ok (o : Z) : Prop := (0 <= o < 2 ^ 64)%Z.
Definition int_wrap (z : Z) : Z := ((z + 2 ^ 63) mod 2 ^ 64 - 2 ^ 63)%Z.

(** The conversion [int(o)] of an unsigned value keeps the bits. *)
Definition int_of_uint (o : Z) : Z := int_wrap o.
Definition int_sub (a b : Z) : Z := int_wrap (a - b).

Definition len {A} (s : list A) : Z := Z.of_nat (length s).

(** [s[i]]: panics outside [0 <= i < len(s)]. *)
Definition index {A} (s : list A) (i : Z) : exec A :=
  if ((0 <=? i) && (i <? len s))%Z
  then match s !! Z.to_nat i with
       | Some x => Returns x
       | None => Panics
       end
  else Panics.

(** [s[:hi]]: panics outside [0 <= hi <= len(s)]. (The bound of Go is
    the capacity; where this package slices, the read at index [hi] just
    before has put [hi] below the length.) *)
Definition slice_to {A} (s : list A) (hi : Z) : exec (list A) :=
  if ((0 <=? hi) && (hi <=? len s))%Z
  then Returns (take (Z.to_nat hi) s)
  else Panics.

(** The [error] interface: [nil] or a message. *)
Definition error : Type := option string.

End Go.

Import Go.

#[global] Instance exec_ret : MRet exec := fun A a => Returns a.
#[global] Instance exec_bind : MBind exec := fun A B k m => Go.bind m k.
#[global] Instance exec_fmap : FMap exec :=
  fun A B g m => Go.bind m (fun a => Returns (g a)).

(** ** Package [net]: addresses and networks *)

Module net.

(** [net.IP] is a byte slice; the nil slice is [None]. *)
Definition IP : Type := option (list Z).
Definition nil_IP : IP := None.

Definition bytes (ip : IP) : list Z := default [] ip.

Definition IPv4len : nat := 4.
Definition IPv6len : nat := 16.

Definition isZeros (p : list Z) : bool := forallb (Z.eqb 0) p.

Definition byte_at (p : list Z) (i : nat) : Z := default 0%Z (p !! i).

(** [IP.To4]: the 4-byte form of an IPv4 address, nil otherwise. *)
Definition To4 (ip : IP) : IP :=
  if Nat.eqb (length (bytes ip)) IPv4len then ip
  else if Nat.eqb (length (bytes ip)) IPv6len
          && isZeros (take 10 (bytes ip))
          && (byte_at (bytes ip) 10 =? 255)%Z
          && (byte_at (bytes ip) 11 =? 255)%Z
       then Some (take 4 (drop 12 (bytes ip)))
       else nil_IP.

Record IPNet : Type := { net_IP : IP; Mask : list Z }.

(** [networkNumberAndMask]: both nil when the network is malformed. *)
Definition networkNumberAndMask (n : IPNet) : IP * list Z :=
  let ip := match To4 (net_IP n) with
            | Some b => Some (Some b)
            | None => if Nat.eqb (length (bytes (net_IP n))) IPv6len
                      then Some (net_IP n) else None
            end in
  match ip with
  | None => (nil_IP, [])
  | Some ip =>
      let m := Mask n in
      if Nat.eqb (length m) IPv4len then
        if Nat.eqb (length (bytes ip)) IPv4len then (ip, m) else (nil_IP, [])
      else if Nat.eqb (length m) IPv6len then
        if Nat.eqb (length (bytes ip)) IPv4len then (ip, drop 12 m) else (ip, m)
      else (nil_IP, [])
  end.

(** The comparison loop of [IPNet.Contains]; the three slices have the
    same length when it is entered. *)
Fixpoint masked_eq (nn m ip : list Z) : bool :=
  match nn, m, ip with
  | [], _, _ => true
  | a :: nn', k :: m', b :: ip' =>
      if (Z.land a k =? Z.land b k)%Z then masked_eq nn' m' ip' else false
  | _ :: _, _, _ => false
  end.

Definition IPNet_Contains (n : IPNet) (ip : IP) : bool :=
  let '(nn, m) := networkNumberAndMask n in
  let ip := match To4 ip with Some x => Some x | None => ip end in
  if negb (Nat.eqb (length (bytes ip)) (length (bytes nn))) then false
  else masked_eq (bytes nn) m (bytes ip).

End net.

Import net.

(** ** extractor.go *)

(** [CIDRWhitelist]: a struct with the list of trusted networks. *)
Record CIDRWhitelist : Type := { whitelist : list IPNet }.

(** [OffsetIPExtractor] is a [uint]. *)
Definition OffsetIPExtractor : Type := Z.

(** [CIDRWhitelist.Contains]: some network of the list contains [ip]. *)
Fixpoint Contains_range (cidrs : list IPNet) (ip : IP) : bool :=
  match cidrs with
  | [] => false
  | cidr :: rest => if IPNet_Contains cidr ip then true else Contains_range rest ip
  end.

Definition Contains (c : CIDRWhitelist) (ip : IP) : bool :=
  Contains_range (whitelist c) ip.

(** [pop]: the last element and the slice without it; nil and the slice
    itself when it is empty. *)
Definition pop (s : list IP) : IP * list IP :=
  let length := len s in
  if (length =? 0)%Z then (nil_IP, s)
  else (default nil_IP (s !! Z.to_nat (length - 1)), take (Z.to_nat (length - 1)) s).

(** The [for len(forwarded) > 0] loop of [CIDRWhitelist.Resolve], on the
    loop state (proxy, remote, forwarded). *)
Equations Resolve_loop (c : CIDRWhitelist) (proxy remote : IP) (forwarded : list IP)
  : IP * IP * list IP by wf (length forwarded) lt :=
  Resolve_loop c proxy remote forwarded with Z_gt_dec (len forwarded) 0 := {
    | right _ => (proxy, remote, forwarded)
    | left more with Contains c remote := {
        | false => (proxy, remote, forwarded)
        | true => Resolve_loop c remote (pop forwarded).1 (pop forwarded).2 } }.
Next Obligation.
  intros. unfold pop, len in *.
  destruct (Z.eqb_spec (Z.of_nat (length forwarded)) 0) as [E|E]; [lia|].
  cbn [snd]. rewrite length_take. lia.
Qed.

(** A resolver returns (proxy, trusted remote, rest of the chain, error). *)
Definition resolved : Type := (IP * IP * list IP * error)%type.

Definition CIDRWhitelist_Resolve (c : CIDRWhitelist) (remote : IP) (forwarded : list IP)
  : exec resolved :=
  let '(proxy, remote, forwarded) := Resolve_loop c nil_IP remote forwarded in
  Returns (proxy, remote, forwarded, None).

Definition OffsetIPExtractor_Resolve (o : OffsetIPExtractor) (remote : IP) (forwarded : list IP)
  : exec resolved :=
  let ips := [] ++ forwarded in
  let ips := ips ++ [remote] in
  let size := len ips in
  if (size <=? int_of_uint o)%Z
  then Returns (nil_IP, nil_IP, [], Some "mis-configured proxy chain")
  else
    proxy ← index ips (int_sub (int_sub size (int_of_uint o)) 1);
    remote ← index ips (int_sub (int_sub size (int_of_uint o)) 2);
    forwarded ← slice_to ips (int_sub (int_sub size (int_of_uint o)) 2);
    Returns (proxy, remote, forwarded, None).

(** The [IPExtractor] interface and its two implementations. *)
Inductive IPExtractor : Type :=
| UseCIDRWhitelist (c : CIDRWhitelist)
| UseOffset (o : OffsetIPExtractor).

Definition Resolve (e : IPExtractor) (remote : IP) (forwarded : list IP) : exec resolved :=
  match e with
  | UseCIDRWhitelist c => CIDRWhitelist_Resolve c remote forwarded
  | UseOffset o => OffsetIPExtractor_Resolve o remote forwarded
  end.


(** ** Package [strings], on byte strings *)

Module strings.

Definition code (c : ascii) : Z := Z.of_N (N_of_ascii c).

(** [strings.Split(s, sep)] for a one-byte separator: the pieces between
    the separators, one more than there are separators. *)
Fixpoint Split (s : string) (sep : ascii) : list string :=
  match s with
  | EmptyString => [EmptyString]
  | String c rest =>
      if Ascii.eqb c sep then EmptyString :: Split rest sep
      else match Split rest sep with
           | tok :: toks => String c tok :: toks
           | [] => [String c EmptyString]
           end
  end.

(** [strings.Join(elems, sep)]. *)
Fixpoint Join (elems : list string) (sep : string) : string :=
  match elems with
  | [] => EmptyString
  | [x] => x
  | x :: rest => x +:+ sep +:+ Join rest sep
  end.

Definition lower (c : ascii) : ascii :=
  if ((65 <=? code c) && (code c <=? 90))%Z
  then ascii_of_N (N_of_ascii c + 32)
  else c.

(** [strings.ToLower] on the ASCII letters (no other code point lowers to
    a letter of "http", "https", "ws" or "wss"). *)
Fixpoint ToLower (s : string) : string :=
  match s with
  | EmptyString => EmptyString
  | String c rest => String (lower c) (ToLower rest)
  end.

End strings.

(** ** Packages [net/url] and [net/http] *)

Module url.

Record URL : Type := {
  Scheme : string;
  Host : string;
  Path : string;
  RawQuery : string
}.

Definition set_Host (u : URL) (h : string) : URL :=
  {| Scheme := Scheme u; Host := h; Path := Path u; RawQuery := RawQuery u |}.

Definition set_Scheme (u : URL) (s : string) : URL :=
  {| Scheme := s; Host := Host u; Path := Path u; RawQuery := RawQuery u |}.

End url.

Module http.

(** A [Header] maps canonical keys to their values. *)
Abbreviation Header := (gmap string (list string)).

Definition upper (c : ascii) : ascii :=
  if ((97 <=? strings.code c) && (strings.code c <=? 122))%Z
  then ascii_of_N (N_of_ascii c - 32)
  else c.

Definition is_alnum (c : ascii) : bool :=
  let n := strings.code c in
  ((48 <=? n) && (n <=? 57) || (65 <=? n) && (n <=? 90) || (97 <=? n) && (n <=? 122))%Z.

(** The bytes allowed in a header field name (RFC 7230 tokens). *)
Definition validHeaderFieldByte (c : ascii) : bool :=
  is_alnum c
  || existsb (Ascii.eqb c)
       ["!"; "#"; "$"; "%"; "&"; "'"; "*"; "+"; "-"; "."; "^"; "_"; "`"; "|"; "~"]%char.

Fixpoint all_valid (s : string) : bool :=
  match s with
  | EmptyString => true
  | String c rest => validHeaderFieldByte c && all_valid rest
  end.

Fixpoint canonical_from (up : bool) (s : string) : string :=
  match s with
  | EmptyString => EmptyString
  | String c rest =>
      String (if up then upper c else strings.lower c)
             (canonical_from (Ascii.eqb c "-") rest)
  end.

(** [textproto.CanonicalMIMEHeaderKey]: the first letter and the letters
    after a hyphen in upper case, the others in lower case; a key with a
    byte that no field name has is left as it is. *)
Definition CanonicalMIMEHeaderKey (s : string) : string :=
  if all_valid s then canonical_from true s else s.

Definition Header_Values (h : Header) (key : string) : list string :=
  default [] (h !! CanonicalMIMEHeaderKey key).

Definition Header_Get (h : Header) (key : string) : string :=
  match Header_Values h key with
  | v :: _ => v
  | [] => EmptyString
  end.

Definition Header_Set (h : Header) (key value : string) : Header :=
  <[CanonicalMIMEHeaderKey key := [value]]> h.

Definition Header_Del (h : Header) (key : string) : Header :=
  delete (CanonicalMIMEHeaderKey key) h.

(** [tls.ConnectionState], of which the package only asks whether the
    request has one. *)
Record ConnectionState : Type := { Version : Z }.

(** The fields of [http.Request] that the package reads or writes, and
    the method as a stand-in for those it only copies. *)
Record Request : Type := {
  Method : string;
  URL : url.URL;
  Header_of : Header;
  Host : string;
  RemoteAddr : string;
  TLS : option ConnectionState
}.

(** [Request.Clone]: a deep copy; a value is its own copy. *)
Definition Clone (r : Request) : Request := r.

Definition set_Host (r : Request) (h : string) : Request :=
  {| Method := Method r; URL := URL r; Header_of := Header_of r; Host := h;
     RemoteAddr := RemoteAddr r; TLS := TLS r |}.

Definition set_URL (r : Request) (u : url.URL) : Request :=
  {| Method := Method r; URL := u; Header_of := Header_of r; Host := Host r;
     RemoteAddr := RemoteAddr r; TLS := TLS r |}.

Definition set_RemoteAddr (r : Request) (a : string) : Request :=
  {| Method := Method r; URL := URL r; Header_of := Header_of r; Host := Host r;
     RemoteAddr := a; TLS := TLS r |}.

Definition set_Header (r : Request) (h : Header) : Request :=
  {| Method := Method r; URL := URL r; Header_of := h; Host := Host r;
     RemoteAddr := RemoteAddr r; TLS := TLS r |}.

Definition StatusInternalServerError : Z := 500.

End http.

(** ** request.go: the trusted view *)

Record forwardedRequest : Type := {
  Request : http.Request;
  proxyIP : IP;
  trustedHost : string;
  trustedProto : string;
  trustedRemoteAddr : IP;
  trustedForwardedFor : list IP;
  trustedURL : option url.URL;
  trustedRequest : option http.Request
}.

Definition set_trustedHost (f : forwardedRequest) (h : string) : forwardedRequest :=
  {| Request := Request f; proxyIP := proxyIP f; trustedHost := h;
     trustedProto := trustedProto f; trustedRemoteAddr := trustedRemoteAddr f;
     trustedForwardedFor := trustedForwardedFor f; trustedURL := trustedURL f;
     trustedRequest := trustedRequest f |}.

Definition set_trustedProto (f : forwardedRequest) (p : string) : forwardedRequest :=
  {| Request := Request f; proxyIP := proxyIP f; trustedHost := trustedHost f;
     trustedProto := p; trustedRemoteAddr := trustedRemoteAddr f;
     trustedForwardedFor := trustedForwardedFor f; trustedURL := trustedURL f;
     trustedRequest := trustedRequest f |}.

Definition set_trustedURL (f : forwardedRequest) (u : url.URL) : forwardedRequest :=
  {| Request := Request f; proxyIP := proxyIP f; trustedHost := trustedHost f;
     trustedProto := trustedProto f; trustedRemoteAddr := trustedRemoteAddr f;
     trustedForwardedFor := trustedForwardedFor f; trustedURL := Some u;
     trustedRequest := trustedRequest f |}.

Definition set_trustedRequest (f : forwardedRequest) (r : http.Request) : forwardedRequest :=
  {| Request := Request f; proxyIP := proxyIP f; trustedHost := trustedHost f;
     trustedProto := trustedProto f; trustedRemoteAddr := trustedRemoteAddr f;
     trustedForwardedFor := trustedForwardedFor f; trustedURL := trustedURL f;
     trustedRequest := Some r |}.

(** The raw request is shared with the caller, who may write to it. *)
Definition set_Request (f : forwardedRequest) (r : http.Request) : forwardedRequest :=
  {| Request := r; proxyIP := proxyIP f; trustedHost := trustedHost f;
     trustedProto := trustedProto f; trustedRemoteAddr := trustedRemoteAddr f;
     trustedForwardedFor := trustedForwardedFor f; trustedURL := trustedURL f;
     trustedRequest := trustedRequest f |}.

#[global] Instance IP_eq_dec : EqDecision IP.
Proof. unfold IP. apply _. Defined.

Definition is_nil (ip : IP) : bool :=
  match ip with
  | None => true
  | Some _ => false
  end.

Definition is_empty (s : string) : bool := String.eqb s EmptyString.

Definition GetOriginalRequest (f : forwardedRequest) : http.Request := Request f.

Definition IsBehindProxy (f : forwardedRequest) : bool := negb (is_nil (proxyIP f)).

Definition GetProxyIP (f : forwardedRequest) : IP := proxyIP f.

(** The methods that fill a cache return their value and the view after
    the call. *)
Definition GetTrustedHost (f : forwardedRequest) : string * forwardedRequest :=
  if negb (is_empty (trustedHost f)) then (trustedHost f, f)
  else if is_nil (proxyIP f) then
    let f := set_trustedHost f (http.Host (Request f)) in
    (trustedHost f, f)
  else
    let xHost := http.Header_Get (http.Header_of (Request f)) "X-Forwarded-Host" in
    if negb (is_empty xHost) then
      let f := set_trustedHost f xHost in
      (trustedHost f, f)
    else
      let f := set_trustedHost f (http.Host (Request f)) in
      (trustedHost f, f).

Definition tls_proto (f : forwardedRequest) : string :=
  match http.TLS (Request f) with
  | Some _ => "https"
  | None => "http"
  end.

Definition GetTrustedProto (f : forwardedRequest) : string * forwardedRequest :=
  if negb (is_empty (trustedProto f)) then (trustedProto f, f)
  else if is_nil (proxyIP f) then
    let f := set_trustedProto f (tls_proto f) in
    (trustedProto f, f)
  else
    let xProto := http.Header_Get (http.Header_of (Request f)) "X-Forwarded-Proto" in
    let low := strings.ToLower xProto in
    if String.eqb low "http" || String.eqb low "ws" then
      let f := set_trustedProto f "http" in
      (trustedProto f, f)
    else if String.eqb low "https" || String.eqb low "wss" then
      let f := set_trustedProto f "https" in
      (trustedProto f, f)
    else
      let f := set_trustedProto f (tls_proto f) in
      (trustedProto f, f).

Definition GetTrustedRemoteAddr (f : forwardedRequest) : IP := trustedRemoteAddr f.

Definition GetTrustedForwardedFor (f : forwardedRequest) : list IP := trustedForwardedFor f.

Section TrustedView.

(** [net.IP.String], the text of an address. *)
Variable IP_String : IP -> string.

(** [url.Parse(u.String())]: the URL written out and read again; [None]
    when the parser rejects the text and hands back a nil pointer. *)
Variable url_reparse : url.URL -> option url.URL.

Definition GetTrustedURL (f : forwardedRequest) : exec (url.URL * forwardedRequest) :=
  match trustedURL f with
  | Some u => Returns (u, f)
  | None =>
      let u := url_reparse (http.URL (Request f)) in
      let '(h, f) := GetTrustedHost f in
      match u with
      | None => Panics
      | Some u =>
          let u := url.set_Host u h in
          let '(p, f) := GetTrustedProto f in
          let u := url.set_Scheme u p in
          let f := set_trustedURL f u in
          Returns (u, f)
      end
  end.

Definition GetTrustedRequest (f : forwardedRequest) : exec (http.Request * forwardedRequest) :=
  match trustedRequest f with
  | Some r => Returns (r, f)
  | None =>
      let req := http.Clone (Request f) in
      let '(h, f) := GetTrustedHost f in
      let req := http.set_Host req h in
      '(u, f) ← GetTrustedURL f;
      let req := http.set_URL req u in
      let req := http.set_RemoteAddr req (IP_String (GetTrustedRemoteAddr f)) in
      let hd :=
        if (len (trustedForwardedFor f) >? 0)%Z then
          http.Header_Set (http.Header_of req) "X-Forwarded-For"
            (IP_String (default nil_IP (trustedForwardedFor f !! 0)))
        else
          http.Header_Del
            (http.Header_Del
               (http.Header_Del (http.Header_of req) "X-Forwarded-For")
               "X-Forwarded-Host")
            "X-Forwarded-Proto" in
      let req := http.set_Header req hd in
      Returns (req, set_trustedRequest f req)
  end.

Definition BuildRequestForForward (stripForwardedIPs : bool) (f : forwardedRequest)
  : exec (http.Request * forwardedRequest) :=
  let req := http.Clone (Request f) in
  let '(h, f) := GetTrustedHost f in
  let req := http.set_Host req h in
  '(u, f) ← GetTrustedURL f;
  let req := http.set_URL req u in
  let hd := http.Header_Del (http.Header_of req) "X-Forwarded-For" in
  let hd := http.Header_Del hd "X-Forwarded-Host" in
  let hd := http.Header_Del hd "X-Forwarded-Proto" in
  let hd := http.Header_Del hd "X-Real-IP" in
  let ips : list string := [] in
  let ips :=
    if negb stripForwardedIPs
    then fold_left (fun ips ip => ips ++ [IP_String ip]) (GetTrustedForwardedFor f) ips
    else ips in
  let ips := ips ++ [IP_String (GetTrustedRemoteAddr f)] in
  let hd := http.Header_Set hd "X-Forwarded-For" (strings.Join ips ", ") in
  let '(h, f) := GetTrustedHost f in
  let hd := http.Header_Set hd "X-Forwarded-Host" h in
  let '(p, f) := GetTrustedProto f in
  let hd := http.Header_Set hd "X-Forwarded-Proto" p in
  Returns (http.set_Header req hd, f).

End TrustedView.

(** ** trustedproxy.go, http.go and the files beside them: the extractor
       of the chain and the middleware entry points *)

(** [net.TCPAddr], the result of [net.ResolveTCPAddr]. *)
Record TCPAddr : Type := { TCPAddr_IP : IP; Port : Z }.

Inductive ErrorType : Type :=
| ErrTypeUnknownRemoteAddr
| ErrTypeIPExtractorError.

(** What handling one request does, in order. *)
Inductive event : Type :=
| EvResolve (remote : IP) (forwarded : list IP)
| EvError (body : string) (code : Z)
| EvServe (r : http.Request) (view : option forwardedRequest)
| EvPanic.

(** An [http.Handler] sees the request and the view stored in its context
    under [CtxKeyForwardedRequest], if any. *)
Definition Handler : Type := http.Request -> option forwardedRequest -> list event.

Definition ErrorHandler : Type := ErrorType -> string -> http.Request -> list event.

(** [http.Error(w, body, code)]. *)
Definition http_Error (body : string) (code : Z) : list event := [EvError body code].

Definition DefaultErrorHandler : ErrorHandler :=
  fun _ err req => http_Error err http.StatusInternalServerError.

Record HTTPHandler : Type := {
  Extractor : IPExtractor;
  Error_Handler : ErrorHandler;
  Next : option Handler
}.

(** [&forwardedRequest{Request: r}]: every cache empty. *)
Definition new_view (r : http.Request) : forwardedRequest :=
  {| Request := r; proxyIP := nil_IP; trustedHost := EmptyString;
     trustedProto := EmptyString; trustedRemoteAddr := nil_IP;
     trustedForwardedFor := []; trustedURL := None; trustedRequest := None |}.

(** The three assignments after a successful [Resolve]. *)
Definition set_resolution (fr : forwardedRequest) (proxy trustedRemote : IP) (restIps : list IP)
  : forwardedRequest :=
  {| Request := Request fr; proxyIP := proxy; trustedHost := trustedHost fr;
     trustedProto := trustedProto fr; trustedRemoteAddr := trustedRemote;
     trustedForwardedFor := restIps; trustedURL := trustedURL fr;
     trustedRequest := trustedRequest fr |}.

Section Middleware.

(** [net.ParseIP]: the address a text denotes, nil when it denotes none. *)
Variable ParseIP : string -> IP.

(** [net.ResolveTCPAddr(network, address)]: the address or an error. *)
Variable ResolveTCPAddr : string -> string -> TCPAddr + string.

Variable IP_String : IP -> string.
Variable url_reparse : url.URL -> option url.URL.

(** [ExtractForwardedForIPs], the same text in both files that have it. *)
Definition ExtractForwardedForIPs (h : http.Header) : list IP :=
  let res : list IP := [] in
  let headers := http.Header_Values h "X-Forwarded-For" in
  fold_left
    (fun res header =>
       fold_left
         (fun res val =>
            let ip := ParseIP val in
            if is_nil ip then res else res ++ [ParseIP val])
         (strings.Split header ",") res)
    headers res.

(** http.go *)
Definition HTTPHandler_SetTrustedProxyContext (h : HTTPHandler) (r : http.Request)
    (next : Handler) : list event :=
  let fr := new_view (http.Clone r) in
  let r := Request fr in
  let ips := ExtractForwardedForIPs (http.Header_of r) in
  match ResolveTCPAddr "tcp" (http.RemoteAddr r) with
  | inr err => DefaultErrorHandler ErrTypeUnknownRemoteAddr err r
  | inl raddr =>
      EvResolve (TCPAddr_IP raddr) ips ::
      match Resolve (Extractor h) (TCPAddr_IP raddr) ips with
      | Panics => [EvPanic]
      | Returns (_, _, _, Some err) => DefaultErrorHandler ErrTypeIPExtractorError err r
      | Returns (proxy, trustedRemote, restIps, None) =>
          next r (Some (set_resolution fr proxy trustedRemote restIps))
      end
  end.

(** The handler that passes the trusted request on, as both
    [HTTPHandler.ServeHTTP] and the older [WithTrustedRequest] wrap it. *)
Definition serve_trusted (next : Handler) : Handler :=
  fun r view =>
    match view with
    | None => [EvPanic]
    | Some fr =>
        match GetTrustedRequest IP_String url_reparse fr with
        | Panics => [EvPanic]
        | Returns (tr, fr) => next tr (Some fr)
        end
    end.

Definition HTTPHandler_ServeHTTP (h : HTTPHandler) (r : http.Request) : list event :=
  match Next h with
  | None => HTTPHandler_SetTrustedProxyContext h r (fun _ _ => [EvPanic])
  | Some next => HTTPHandler_SetTrustedProxyContext h r (serve_trusted next)
  end.

End Middleware.

(** The entry points of the file with [DefaultErrorHandler]. *)
Module part_001.
Section EntryPoints.
Variable ParseIP : string -> IP.
Variable ResolveTCPAddr : string -> string -> TCPAddr + string.
Variable IP_String : IP -> string.
Variable url_reparse : url.URL -> option url.URL.

Definition WithTrustedRequest (resolver : IPExtractor) (next : Handler) : Handler :=
  fun r _ =>
    HTTPHandler_ServeHTTP ParseIP ResolveTCPAddr IP_String url_reparse
      {| Extractor := resolver; Error_Handler := DefaultErrorHandler; Next := Some next |} r.

Definition WithTrustedProxyContext (resolver : IPExtractor) (next : Handler) : Handler :=
  let handler := {| Extractor := resolver; Error_Handler := DefaultErrorHandler; Next := None |} in
  fun r _ => HTTPHandler_SetTrustedProxyContext ParseIP ResolveTCPAddr handler r next.

End EntryPoints.
End part_001.

(** The entry points of trustedproxy.go. *)
Module trustedproxy_go.
Section EntryPoints.
Variable ParseIP : string -> IP.
Variable IP_String : IP -> string.
Variable url_reparse : url.URL -> option url.URL.

Definition WithTrustedProxyContext (resolver : IPExtractor) (next : Handler) : Handler :=
  fun r _ =>
    let fr := new_view r in
    let r := http.Clone r in
    let ips := ExtractForwardedForIPs ParseIP (http.Header_of r) in
    EvResolve (ParseIP (http.RemoteAddr r)) ips ::
    match Resolve resolver (ParseIP (http.RemoteAddr r)) ips with
    | Panics => [EvPanic]
    | Returns (_, _, _, Some err) => http_Error err http.StatusInternalServerError
    | Returns (proxy, trustedRemote, restIps, None) =>
        next r (Some (set_resolution fr proxy trustedRemote restIps))
    end.

(** Here the view holds the request of the caller, as it was before the
    clone that carries the view: the trusted request is cloned with the
    context of that request, so the next handler finds in it what the
    caller's request held under [CtxKeyForwardedRequest], not this view. *)
Definition WithTrustedRequest (resolver : IPExtractor) (next : Handler) : Handler :=
  fun r view0 =>
    WithTrustedProxyContext resolver
      (fun _ view =>
         match view with
         | None => [EvPanic]
         | Some fr =>
             match GetTrustedRequest IP_String url_reparse fr with
             | Panics => [EvPanic]
             | Returns (tr, _) => next tr view0
             end
         end)
      r view0.

End EntryPoints.
End trustedproxy_go.

(** ** The library functions on dotted-decimal texts

    [net.ParseIP] and [net.IP.String] are parameters of the development.
    The examples instantiate them with the dotted-decimal (IPv4) branch of
    the library; texts of the colon-hexadecimal branch do not occur in
    them. *)

Module dotted.

Definition is_digit (c : ascii) : bool :=
  ((48 <=? strings.code c) && (strings.code c <=? 57))%Z.

(** The field loop of the library's IPv4 parser: [val] is the octet being
    read, [digLen] its number of digits, [fields] the octets read so far,
    [first] and [prevdot] say whether the byte is the first of the text and
    whether the byte before it was a dot. *)
Fixpoint parseIPv4Fields (s : string) (first prevdot : bool) (val : Z) (digLen : nat)
    (fields : list Z) : option (list Z) :=
  match s with
  | EmptyString => if length fields <? 3 then None else Some (fields ++ [val])
  | String c rest =>
      if is_digit c then
        if Nat.eqb digLen 1 && (val =? 0)%Z then None
        else
          let val := (val * 10 + (strings.code c - 48))%Z in
          if (val >? 255)%Z then None
          else parseIPv4Fields rest false false val (S digLen) fields
      else if Ascii.eqb c "." then
        if first || is_empty rest || prevdot then None
        else if Nat.eqb (length fields) 3 then None
        else parseIPv4Fields rest false true 0%Z 0 (fields ++ [val])
      else None
  end.

Definition v4InV6Prefix : list Z := [0; 0; 0; 0; 0; 0; 0; 0; 0; 0; 255; 255]%Z.

(** The 16-byte form of the address, as [net.ParseIP] returns it. *)
Definition ParseIP (s : string) : IP :=
  match parseIPv4Fields s true false 0%Z 0 [] with
  | Some fields => Some (v4InV6Prefix ++ fields)
  | None => nil_IP
  end.

Definition ubtoa (b : Z) : string := pretty (Z.to_N b).

(** [IP.String] of nil and of the addresses that have a 4-byte form. *)
Definition IP_String (ip : IP) : string :=
  match ip with
  | None => "<nil>"
  | Some _ =>
      match To4 ip with
      | Some [a; b; c; d] =>
          ubtoa a +:+ "." +:+ ubtoa b +:+ "." +:+ ubtoa c +:+ "." +:+ ubtoa d
      | _ => "?"
      end
  end.

End dotted.

(** ** The statements of the specification, as definitions of their own *)

Module Spec.

(** Trimming: the blanks at both ends of a token are taken off. *)
Definition is_space (c : ascii) : bool :=
  let n := strings.code c in
  ((n =? 32) || (9 <=? n) && (n <=? 13))%Z.

Fixpoint trim_left (s : string) : string :=
  match s with
  | EmptyString => EmptyString
  | String c rest => if is_space c then trim_left rest else s
  end.

Fixpoint trim_right (s : string) : string :=
  match s with
  | EmptyString => EmptyString
  | String c rest =>
      match trim_right rest with
      | EmptyString => if is_space c then EmptyString else String c EmptyString
      | t => String c t
      end
  end.

Definition trim (s : string) : string := trim_right (trim_left s).

(** The chain of a header as the specification words it: every value is
    split on commas, every token trimmed and parsed, the tokens that do not
    parse dropped, the addresses kept in order. *)
Definition chain_of_headers (ParseIP : string -> IP) (values : list string) : list IP :=
  flat_map
    (fun value =>
       flat_map
         (fun token =>
            match ParseIP (trim token) with
            | None => []
            | Some a => [Some a]
            end)
         (strings.Split value ","))
    values.

(** An address is trusted when some prefix of the whitelist contains it. *)
Definition in_some_prefix (W : CIDRWhitelist) (a : IP) : Prop :=
  exists n, n ∈ whitelist W /\ IPNet_Contains n a = true.

(** The walk of the whitelist resolver as the specification words it:
    from the state (proxy, candidate, chain) either stop, when the
    candidate is in no prefix or the chain is used up, or promote the
    candidate and go on with the rightmost entry of the chain. *)
Inductive walk (W : CIDRWhitelist) : IP -> IP -> list IP -> IP * IP * list IP -> Prop :=
| walk_untrusted proxy candidate chain :
    ~ in_some_prefix W candidate ->
    walk W proxy candidate chain (proxy, candidate, chain)
| walk_exhausted proxy candidate :
    walk W proxy candidate [] (proxy, candidate, [])
| walk_promote proxy candidate chain newest result :
    in_some_prefix W candidate ->
    walk W candidate newest chain result ->
    walk W proxy candidate (chain ++ [newest]) result.

(** Two texts that differ in the case of their letters only. *)
Fixpoint same_ignoring_case (a b : string) : bool :=
  match a, b with
  | EmptyString, EmptyString => true
  | String x a', String y b' =>
      Ascii.eqb (strings.lower x) (strings.lower y) && same_ignoring_case a' b'
  | _, _ => false
  end.

Definition tls_default (secured : bool) : string :=
  if secured then "https" else "http".

(** The trusted protocol of section 4.4. *)
Definition trusted_proto (behind_proxy secured : bool) (forwarded_proto : string) : string :=
  if behind_proxy then
    if same_ignoring_case forwarded_proto "http" || same_ignoring_case forwarded_proto "ws"
    then "http"
    else if same_ignoring_case forwarded_proto "https"
            || same_ignoring_case forwarded_proto "wss"
    then "https"
    else tls_default secured
  else tls_default secured.

(** The trusted host of section 4.4. *)
Definition trusted_host (behind_proxy : bool) (host forwarded_host : string) : string :=
  if behind_proxy then
    if is_empty forwarded_host then host else forwarded_host
  else host.

End Spec.

(** ** The views that the package hands out *)

(** A write of the caller to the raw request that the view shares. *)
Definition write_raw (g : http.Request -> http.Request) (f : forwardedRequest)
  : forwardedRequest :=
  set_Request f (g (Request f)).

(** What the view reads of the raw request. *)
Definition raw_host (f : forwardedRequest) : string := http.Host (Request f).

Definition forwarded_host (f : forwardedRequest) : string :=
  http.Header_Get (http.Header_of (Request f)) "X-Forwarded-Host".

Definition forwarded_proto (f : forwardedRequest) : string :=
  http.Header_Get (http.Header_of (Request f)) "X-Forwarded-Proto".

Definition secured (f : forwardedRequest) : bool :=
  match http.TLS (Request f) with
  | Some _ => true
  | None => false
  end.

(** The host and the protocol that the specification gives a view. *)
Definition host_of (f : forwardedRequest) : string :=
  Spec.trusted_host (IsBehindProxy f) (raw_host f) (forwarded_host f).

Definition proto_of (f : forwardedRequest) : string :=
  Spec.trusted_proto (IsBehindProxy f) (secured f) (forwarded_proto f).

Definition url_of (f : forwardedRequest) (u0 : url.URL) : url.URL :=
  url.set_Scheme (url.set_Host u0 (host_of f)) (proto_of f).

(** Two views of the same request and the same resolution. *)
Definition same_inputs (f f' : forwardedRequest) : Prop :=
  Request f' = Request f /\ proxyIP f' = proxyIP f
  /\ trustedRemoteAddr f' = trustedRemoteAddr f
  /\ trustedForwardedFor f' = trustedForwardedFor f.

(** The methods of the view that fill a cache. *)
Inductive method : Type :=
| CallGetTrustedHost
| CallGetTrustedProto
| CallGetTrustedURL
| CallGetTrustedRequest
| CallBuildRequestForForward (stripForwardedIPs : bool).

Section Views.

Variable IP_String : IP -> string.
Variable url_reparse : url.URL -> option url.URL.

(** The view after a call of a method. *)
Definition after (m : method) (f : forwardedRequest) : exec forwardedRequest :=
  match m with
  | CallGetTrustedHost => Returns (GetTrustedHost f).2
  | CallGetTrustedProto => Returns (GetTrustedProto f).2
  | CallGetTrustedURL => snd <$> GetTrustedURL url_reparse f
  | CallGetTrustedRequest => snd <$> GetTrustedRequest IP_String url_reparse f
  | CallBuildRequestForForward strip =>
      snd <$> BuildRequestForForward IP_String url_reparse strip f
  end.

(** A trusted view is what a middleware builds from a request and the
    result of [Resolve], and what any calls of its methods make of it. *)
Inductive trusted_view : forwardedRequest -> Prop :=
| view_resolved r proxy trustedRemote restIps :
    trusted_view (set_resolution (new_view r) proxy trustedRemote restIps)
| view_after m f f' :
    trusted_view f -> after m f = Returns f' -> trusted_view f'.


(** The headers of the trusted request. *)
Definition trusted_headers (f : forwardedRequest) : http.Header :=
  match trustedForwardedFor f with
  | first :: _ =>
      <["X-Forwarded-For" := [IP_String first]]> (http.Header_of (Request f))
  | [] =>
      delete "X-Forwarded-Proto"
        (delete "X-Forwarded-Host"
           (delete "X-Forwarded-For" (http.Header_of (Request f))))
  end.

Definition request_of (f : forwardedRequest) (u0 : url.URL) : http.Request :=
  {| http.Method := http.Method (Request f);
     http.URL := url_of f u0;
     http.Header_of := trusted_headers f;
     http.Host := host_of f;
     http.RemoteAddr := IP_String (trustedRemoteAddr f);
     http.TLS := http.TLS (Request f) |}.

(** Every cache is empty or holds the value of the specification. *)
Definition caches_agree (f : forwardedRequest) : Prop :=
  (trustedHost f = EmptyString \/ trustedHost f = host_of f)
  /\ (trustedProto f = EmptyString \/ trustedProto f = proto_of f)
  /\ (forall u, trustedURL f = Some u ->
       exists u0, url_reparse (http.URL (Request f)) = Some u0 /\ u = url_of f u0)
  /\ (forall r, trustedRequest f = Some r ->
       exists u0, url_reparse (http.URL (Request f)) = Some u0 /\ r = request_of f u0).

(** The addresses of the fresh [X-Forwarded-For] header of a request built
    for forwarding, and its headers. *)
Definition forwarded_texts (strip : bool) (f : forwardedRequest) : list string :=
  (if strip then [] else map IP_String (trustedForwardedFor f))
  ++ [IP_String (trustedRemoteAddr f)].

Definition forward_headers (strip : bool) (f : forwardedRequest) : http.Header :=
  <["X-Forwarded-Proto" := [proto_of f]]>
    (<["X-Forwarded-Host" := [host_of f]]>
       (<["X-Forwarded-For" := [strings.Join (forwarded_texts strip f) ", "]]>
          (delete "X-Real-Ip"
             (delete "X-Forwarded-Proto"
                (delete "X-Forwarded-Host"
                   (delete "X-Forwarded-For" (http.Header_of (Request f)))))))).

End Views.

(** The addresses that [ExtractForwardedForIPs] takes from one token: the
    token is parsed as it stands. *)
Definition parsed (ParseIP : string -> IP) (val : string) : list IP :=
  match ParseIP val with
  | None => []
  | Some a => [Some a]
  end.

(** ** The life of a view *)

Section Life.

Variable IP_String : IP -> string.
Variable url_reparse : url.URL -> option url.URL.

(** What can happen to a view between two calls: writes of the caller to
    the raw request and calls of the methods, in any order. *)
Inductive evolves : forwardedRequest -> forwardedRequest -> Prop :=
| evolves_here f : evolves f f
| evolves_write f f' g : evolves f f' -> evolves f (write_raw g f')
| evolves_call f f' f'' m :
    evolves f f' -> after IP_String url_reparse m f' = Returns f'' -> evolves f f''.

End Life.

(** The second view has every cache entry that the first has. *)
Definition caches_kept (f f' : forwardedRequest) : Prop :=
  (trustedHost f <> EmptyString -> trustedHost f' = trustedHost f)
  /\ (trustedProto f <> EmptyString -> trustedProto f' = trustedProto f)
  /\ (forall u, trustedURL f = Some u -> trustedURL f' = Some u)
  /\ (forall r, trustedRequest f = Some r -> trustedRequest f' = Some r).

(** Whether a byte occurs in a text. *)
Fixpoint has_byte (c : ascii) (s : string) : bool :=
  match s with
  | EmptyString => false
  | String x rest => Ascii.eqb x c || has_byte c rest
  end.

(** ** A resolver of peer addresses for the examples

    [net.ResolveTCPAddr] is a parameter; the examples use it on texts
    "a.b.c.d:port", where it needs no name service. *)

Module literal.

(** The text before the last colon and the text after it. *)
Fixpoint cut_port (s : string) : option (string * string) :=
  match s with
  | EmptyString => None
  | String c rest =>
      match cut_port rest with
      | Some (h, p) => Some (String c h, p)
      | None => if Ascii.eqb c ":" then Some (EmptyString, rest) else None
      end
  end.

Fixpoint parse_port (s : string) (acc : Z) : option Z :=
  match s with
  | EmptyString => Some acc
  | String c rest =>
      if dotted.is_digit c then
        let acc := (acc * 10 + (strings.code c - 48))%Z in
        if (acc >? 65535)%Z then None else parse_port rest acc
      else None
  end.

(** An address without a host (the empty text, or a colon and a port)
    resolves to a nil IP with no error. *)
Definition ResolveTCPAddr (network addr : string) : TCPAddr + string :=
  if is_empty addr then inl {| TCPAddr_IP := nil_IP; Port := 0 |}
  else
    match cut_port addr with
    | None => inr ("address " +:+ addr +:+ ": missing port in address")
    | Some (h, p) =>
        if is_empty h then
          match parse_port p 0%Z with
          | Some n => inl {| TCPAddr_IP := nil_IP; Port := n |}
          | None => inr ("lookup tcp/" +:+ p +:+ ": unknown port")
          end
        else
          match dotted.ParseIP h, parse_port p 0%Z with
          | Some b, Some n => inl {| TCPAddr_IP := Some b; Port := n |}
          | _, _ => inr ("lookup " +:+ h +:+ ": no such host")
          end
    end.

End literal.

(** ** Values of the examples *)

Definition ip4 (a b c d : Z) : IP := Some [a; b; c; d].

Definition ten_slash_8 : IPNet :=
  {| net_IP := ip4 10 0 0 0; Mask := [255; 0; 0; 0]%Z |}.

Definition root_url : url.URL :=
  {| url.Scheme := EmptyString; url.Host := EmptyString; url.Path := "/";
     url.RawQuery := EmptyString |}.

(** A request with the given host, peer address and headers. *)
Definition get_request (host remoteAddr : string) (h : http.Header) : http.Request :=
  {| http.Method := "GET"; http.URL := root_url; http.Header_of := h;
     http.Host := host; http.RemoteAddr := remoteAddr; http.TLS := None |}.

Definition xff (values : list string) : http.Header :=
  <["X-Forwarded-For" := values]> ∅.

(** The last handler of a chain, which shows what it was given. *)
Definition observe : Handler := fun r view => [EvServe r view].

(** The view of a request that came through the trusted proxy 10.0.0.1
    with the protocol written in capitals. *)
Definition wss_view : forwardedRequest :=
  set_resolution
    (new_view (get_request "example.org" "10.0.0.1:4711"
                 (<["X-Forwarded-Proto" := ["WSS"]]> ∅)))
    (ip4 10 0 0 1) (ip4 1 2 3 4) [].

(** The view of the end-to-end example: peer 10.0.0.1, header
    [X-Forwarded-For: 1.2.3.4,10.0.0.2], resolved to proxy 10.0.0.2,
    trusted remote 1.2.3.4 and an empty rest. *)
Definition end_to_end_view : forwardedRequest :=
  set_resolution
    (new_view (get_request "example.org" "10.0.0.1:4711" (xff ["1.2.3.4,10.0.0.2"])))
    (dotted.ParseIP "10.0.0.2") (dotted.ParseIP "1.2.3.4") [].

(** The view of a request with two untrusted hops left in the rest and
    forwarding headers of its own. *)
Definition two_hop_view : forwardedRequest :=
  set_resolution
    (new_view (get_request "example.org" "10.0.0.1:4711"
                 (<["X-Real-Ip" := ["6.6.6.6"]]> (xff ["7.7.7.7,8.8.8.8,1.2.3.4"]))))
    (ip4 10 0 0 1) (dotted.ParseIP "1.2.3.4")
    [dotted.ParseIP "7.7.7.7"; dotted.ParseIP "8.8.8.8"].

(** The view of a request that names no host (as HTTP/1.0 allows) and
    comes from a peer that is not trusted. *)
Definition hostless_view : forwardedRequest :=
  set_resolution (new_view (get_request EmptyString "192.0.2.7:4711" ∅))
    nil_IP (ip4 192 0 2 7) [].

(** A request whose peer address is no address at all. *)
Definition bogus_request : http.Request := get_request "example.org" "bogus" ∅.

(** The view of a request that came through the trusted proxy 10.0.0.1,
    which names the host that the client asked for. *)
Definition forwarded_host_view : forwardedRequest :=
  set_resolution
    (new_view (get_request "backend.internal:8080" "10.0.0.1:4711"
                 (<["X-Forwarded-Host" := ["shop.example"]]> ∅)))
    (ip4 10 0 0 1) (ip4 1 2 3 4) [].

(** A reading of URLs that refuses a host with a blank in it, as the
    parser does, and reads every other URL back as it is. *)
Definition reparse_no_blank (u : url.URL) : option url.URL :=
  if has_byte " " (url.Host u) then None else Some u.

(** A view whose raw URL has such a host. *)
Definition blank_host_view : forwardedRequest :=
  set_resolution
    (new_view
       {| http.Method := "GET";
          http.URL := {| url.Scheme := "http"; url.Host := "a b"; url.Path := "/";
                         url.RawQuery := EmptyString |};
          http.Header_of := ∅; http.Host := "example.org";
          http.RemoteAddr := "192.0.2.7:4711"; http.TLS := None |})
    nil_IP (ip4 192 0 2 7) [].

(** A request from a peer outside 10.0.0.0/8 that claims to be forwarded
    and names a host and a protocol of its choice. *)
Definition spoofing_request : http.Request :=
  get_request "example.org" "203.0.113.9:4711"
    (<["X-Forwarded-Proto" := ["https"]]>
       (<["X-Forwarded-Host" := ["evil.example"]]> (xff ["10.0.0.7"]))).

(** A request that came through the trusted proxy 10.0.0.1. *)
Definition proxied_request : http.Request :=
  get_request "example.org" "10.0.0.1:4711" (xff ["7.7.7.7,1.2.3.4"]).

(** * Properties *)

(** ** Machine integers and slices *)

Lemma int_wrap_small (z : Z) :
  (- 2 ^ 63 <= z < 2 ^ 63)%Z -> int_wrap z = z.
Proof.
  intros H. unfold int_wrap.
  rewrite Z.mod_small by lia. lia.
Qed.

Lemma int_wrap_range (z : Z) : (- 2 ^ 63 <= int_wrap z < 2 ^ 63)%Z.
Proof.
  unfold int_wrap.
  assert (0 <= (z + 2 ^ 63) mod 2 ^ 64 < 2 ^ 64)%Z by (apply Z.mod_pos_bound; lia).
  lia.
Qed.

Lemma int_of_uint_small (o : Z) :
  (0 <= o <= MaxInt)%Z -> int_of_uint o = o.
Proof. unfold int_of_uint, MaxInt. intros H. apply int_wrap_small. lia. Qed.

(** An unsigned value above [MaxInt] converts to a negative [int]. *)
Lemma int_of_uint_large (o : Z) :
  (MaxInt < o)%Z -> uint_ok o -> int_of_uint o = (o - 2 ^ 64)%Z.
Proof.
  unfold int_of_uint, int_wrap, MaxInt, uint_ok. intros H1 H2.
  replace (o + 2 ^ 63)%Z with ((o - 2 ^ 63) + 1 * 2 ^ 64)%Z by lia.
  rewrite Z.mod_add by lia. rewrite Z.mod_small by lia. lia.
Qed.

Lemma len_nonneg {A} (s : list A) : (0 <= len s)%Z.
Proof. unfold len. lia. Qed.

Lemma len_app {A} (s t : list A) : len (s ++ t) = (len s + len t)%Z.
Proof. unfold len. rewrite length_app. lia. Qed.

Lemma index_in_range {A} (s : list A) (i : Z) (x : A) :
  index s i = Returns x <-> (0 <= i < len s)%Z /\ s !! Z.to_nat i = Some x.
Proof.
  unfold index.
  destruct (Z.leb_spec 0 i), (Z.ltb_spec i (len s)); cbn [andb];
    try (split; [discriminate | lia]).
  destruct (s !! Z.to_nat i) eqn:E.
  - split; [intros [= ->]; split; [lia | reflexivity] | intros [_ [= ->]]; reflexivity].
  - split; [discriminate | intros [_ ?]; discriminate].
Qed.

Lemma index_out_of_range {A} (s : list A) (i : Z) :
  (i < 0 \/ len s <= i)%Z -> index s i = Panics.
Proof.
  unfold index. intros H.
  destruct (Z.leb_spec 0 i), (Z.ltb_spec i (len s)); cbn [andb]; try reflexivity; lia.
Qed.

Lemma slice_to_in_range {A} (s r : list A) (hi : Z) :
  slice_to s hi = Returns r <-> (0 <= hi <= len s)%Z /\ r = take (Z.to_nat hi) s.
Proof.
  unfold slice_to.
  destruct (Z.leb_spec 0 hi), (Z.leb_spec hi (len s)); cbn [andb];
    try (split; [discriminate | lia]).
  split; [intros [= <-]; split; [lia | reflexivity] | intros [_ ->]; reflexivity].
Qed.

(** ** [pop] *)

Lemma pop_nil : pop [] = (nil_IP, []).
Proof. reflexivity. Qed.

Lemma pop_snoc (s : list IP) (x : IP) : pop (s ++ [x]) = (x, s).
Proof.
  unfold pop, len. rewrite length_app. cbn [length].
  destruct (Z.eqb_spec (Z.of_nat (length s + 1)) 0) as [E|_]; [lia|].
  replace (Z.to_nat (Z.of_nat (length s + 1) - 1)) with (length s) by lia.
  rewrite list_lookup_middle by reflexivity.
  rewrite take_app_length. reflexivity.
Qed.

Lemma nonempty_snoc {A} (s : list A) :
  (len s > 0)%Z -> exists init newest, s = init ++ [newest].
Proof.
  unfold len. destruct s as [|a s] using rev_ind; cbn [length]; [lia|].
  intros _. eauto.
Qed.

Lemma empty_of_len {A} (s : list A) : ~ (len s > 0)%Z -> s = [].
Proof. unfold len. destruct s; cbn [length]; [reflexivity | lia]. Qed.

(** ** The whitelist resolver *)

(** [Contains] searches the whitelist for a prefix with the address. *)
Lemma Contains_in_some_prefix (W : CIDRWhitelist) (a : IP) :
  Contains W a = true <-> Spec.in_some_prefix W a.
Proof.
  unfold Contains, Spec.in_some_prefix.
  induction (whitelist W) as [|n ns IH]; cbn [Contains_range].
  - split; [discriminate | intros (n & Hn & _); inversion Hn].
  - destruct (IPNet_Contains n a) eqn:E.
    + split; [intros _; exists n; split; [left | exact E] | reflexivity].
    + rewrite IH. split.
      * intros (m & Hm & Hc). exists m. split; [right; exact Hm | exact Hc].
      * intros (m & Hm & Hc). apply elem_of_cons in Hm as [-> | Hm]; [congruence|].
        exists m. auto.
Qed.

Lemma Contains_false (W : CIDRWhitelist) (a : IP) :
  Contains W a = false <-> ~ Spec.in_some_prefix W a.
Proof.
  rewrite <- Contains_in_some_prefix. destruct (Contains W a); split; congruence.
Qed.

(** The loop of the code takes the steps of the walk of the specification. *)
Lemma Resolve_loop_walk (W : CIDRWhitelist) (proxy remote : IP) (C : list IP) :
  Spec.walk W proxy remote C (Resolve_loop W proxy remote C).
Proof.
  funelim (Resolve_loop W proxy remote C); try clear Heqcall.
  - clear Heq. apply empty_of_len in n. subst forwarded. apply Spec.walk_exhausted.
  - clear Heq0. destruct (nonempty_snoc forwarded more) as (init & newest & ->).
    rewrite pop_snoc in H |- *. cbn [fst snd] in H |- *.
    apply Spec.walk_promote; [apply Contains_in_some_prefix|]; assumption.
  - apply Spec.walk_untrusted. apply Contains_false. assumption.
Qed.

(** The walk has one result. *)
Lemma walk_functional (W : CIDRWhitelist) (proxy cand : IP) (C : list IP)
    (r1 r2 : IP * IP * list IP) :
  Spec.walk W proxy cand C r1 -> Spec.walk W proxy cand C r2 -> r1 = r2.
Proof.
  intros H1. revert r2.
  induction H1 as [p c ch Hc | p c | p c ch x res Hc Hw IH]; intros r2 H2.
  - inversion H2; subst; try reflexivity. contradiction.
  - inversion H2; subst; try reflexivity.
    match goal with E : _ ++ [_] = [] |- _ => apply app_eq_nil in E as [_ E] end.
    discriminate.
  - inversion H2; subst.
    + contradiction.
    + match goal with E : [] = _ ++ [_] |- _ => symmetry in E; apply app_eq_nil in E as [_ E] end.
      discriminate.
    + match goal with E : _ ++ [_] = _ ++ [_] |- _ => apply app_inj_tail in E as [-> ->] end.
      apply IH. assumption.
Qed.

(** Where the walk stops, the chain with the peer at its end is the rest,
    the trusted remote, and the hops that were promoted, the last promoted
    one (the proxy) first. *)
Lemma walk_split (W : CIDRWhitelist) (p0 cand : IP) (C : list IP) (res : IP * IP * list IP) :
  Spec.walk W p0 cand C res ->
  exists consumed,
    C ++ [cand] = res.2 ++ res.1.2 :: consumed
    /\ ((consumed = [] /\ res.1.1 = p0) \/ exists more, consumed = res.1.1 :: more).
Proof.
  induction 1 as [p c ch Hc | p c | p c ch x res Hc Hw IH]; cbn [fst snd].
  - exists []. split; [reflexivity | left; split; reflexivity].
  - exists []. split; [reflexivity | left; split; reflexivity].
  - destruct IH as (consumed & Heq & Hcons).
    exists (consumed ++ [c]). split.
    + rewrite Heq. rewrite <- app_assoc. reflexivity.
    + right. destruct Hcons as [[-> ->] | [more ->]]; eauto.
Qed.

Lemma walk_rest_prefix (W : CIDRWhitelist) (p0 cand : IP) (C : list IP)
    (res : IP * IP * list IP) :
  Spec.walk W p0 cand C res -> res.2 `prefix_of` C.
Proof.
  induction 1 as [p c ch Hc | p c | p c ch x res Hc Hw IH]; cbn [snd].
  - reflexivity.
  - reflexivity.
  - etransitivity; [exact IH | apply prefix_app_r; reflexivity].
Qed.

Lemma CIDRWhitelist_Resolve_returns (W : CIDRWhitelist) (remote : IP) (C : list IP) :
  CIDRWhitelist_Resolve W remote C =
  Returns ((Resolve_loop W nil_IP remote C).1.1,
           (Resolve_loop W nil_IP remote C).1.2,
           (Resolve_loop W nil_IP remote C).2, None).
Proof.
  unfold CIDRWhitelist_Resolve.
  destruct (Resolve_loop W nil_IP remote C) as [[p t] r]. reflexivity.
Qed.

(** ** The offset resolver *)

Lemma int_wrap_pred (z : Z) :
  (- 2 ^ 63 < int_wrap z)%Z -> int_wrap (z - 1) = (int_wrap z - 1)%Z.
Proof.
  unfold int_wrap.
  change (2 ^ 63)%Z with 9223372036854775808%Z.
  change (2 ^ 64)%Z with 18446744073709551616%Z.
  intros H. Z.div_mod_to_equations. lia.
Qed.

(** The two indices of [OffsetIPExtractor.Resolve] are neighbours as soon
    as the first is not negative. *)
Lemma offset_indices (x : Z) :
  (0 <= int_sub x 1)%Z -> int_sub x 2 = (int_sub x 1 - 1)%Z.
Proof.
  unfold int_sub. intros H.
  replace (x - 2)%Z with (x - 1 - 1)%Z by lia.
  apply int_wrap_pred. lia.
Qed.

(** What a successful call of the offset resolver says about the combined
    chain: the trusted remote at some position, the proxy right after it,
    the rest all that lies before. *)
Lemma offset_resolve_inv (o : OffsetIPExtractor) (remote : IP) (forwarded : list IP)
    (p t : IP) (r : list IP) (e : error) :
  OffsetIPExtractor_Resolve o remote forwarded = Returns (p, t, r, e) ->
  e = None ->
  exists k : nat,
    (forwarded ++ [remote]) !! S k = Some p
    /\ (forwarded ++ [remote]) !! k = Some t
    /\ r = take k (forwarded ++ [remote]).
Proof.
  unfold OffsetIPExtractor_Resolve. cbn [app].
  set (ips := forwarded ++ [remote]).
  set (x := int_sub (len ips) (int_of_uint o)).
  destruct (len ips <=? int_of_uint o)%Z.
  { intros [= <- <- <- <-]. discriminate. }
  unfold mbind, exec_bind, Go.bind.
  destruct (index ips (int_sub x 1)) as [p'|] eqn:E1; [|discriminate].
  destruct (index ips (int_sub x 2)) as [t'|] eqn:E2; [|discriminate].
  destruct (slice_to ips (int_sub x 2)) as [r'|] eqn:E3; [|discriminate].
  intros [= -> -> -> <-] _.
  apply index_in_range in E1 as [R1 L1].
  apply index_in_range in E2 as [R2 L2].
  apply slice_to_in_range in E3 as [R3 ->].
  rewrite offset_indices in * by lia.
  exists (Z.to_nat (int_sub x 1 - 1)).
  replace (S (Z.to_nat (int_sub x 1 - 1))) with (Z.to_nat (int_sub x 1)) by lia.
  auto.
Qed.

(** The guard of the code: a chain no longer than the offset is refused. *)
Lemma offset_resolve_too_short (o : OffsetIPExtractor) (remote : IP) (forwarded : list IP) :
  (0 <= o <= MaxInt)%Z ->
  (len (forwarded ++ [remote]) <= o)%Z ->
  OffsetIPExtractor_Resolve o remote forwarded =
  Returns (nil_IP, nil_IP, [], Some "mis-configured proxy chain"%string).
Proof.
  intros Ho Hs. unfold OffsetIPExtractor_Resolve. cbn [app].
  rewrite int_of_uint_small by assumption.
  destruct (Z.leb_spec (len (forwarded ++ [remote])) o); [reflexivity | lia].
Qed.

(** One entry more than the offset passes the guard and runs off the
    front of the chain. *)
Lemma offset_resolve_boundary (o : OffsetIPExtractor) (remote : IP) (forwarded : list IP) :
  (0 <= o)%Z ->
  (len (forwarded ++ [remote]) <= MaxInt)%Z ->
  len (forwarded ++ [remote]) = (o + 1)%Z ->
  OffsetIPExtractor_Resolve o remote forwarded = Panics.
Proof.
  intros Ho Hm Hs. unfold OffsetIPExtractor_Resolve. cbn [app].
  rewrite int_of_uint_small by lia.
  destruct (Z.leb_spec (len (forwarded ++ [remote])) o); [lia|].
  rewrite Hs. unfold int_sub.
  replace (o + 1 - o)%Z with 1%Z by lia.
  rewrite (int_wrap_small 1) by (cbn; lia).
  rewrite (int_wrap_small (1 - 1)) by (cbn; lia).
  rewrite (int_wrap_small (1 - 2)) by (cbn; lia).
  unfold mbind, exec_bind, Go.bind.
  destruct (index (forwarded ++ [remote]) (1 - 1)); [|reflexivity].
  rewrite index_out_of_range by lia. reflexivity.
Qed.

(** An offset that does not fit an [int] turns negative in the guard. *)
Lemma offset_resolve_huge (o : OffsetIPExtractor) (remote : IP) (forwarded : list IP) :
  uint_ok o -> (MaxInt < o)%Z ->
  (len (forwarded ++ [remote]) <= MaxInt)%Z ->
  OffsetIPExtractor_Resolve o remote forwarded = Panics.
Proof.
  intros Ho Hbig Hm. unfold OffsetIPExtractor_Resolve. cbn [app].
  rewrite int_of_uint_large by assumption.
  pose proof (len_app forwarded [remote]) as Hl.
  pose proof (len_nonneg forwarded) as Hf.
  change (len [remote]) with 1%Z in Hl.
  set (size := len (forwarded ++ [remote])) in *.
  unfold uint_ok, MaxInt in *.
  destruct (Z.leb_spec size (o - 2 ^ 64)); [lia|].
  unfold mbind, exec_bind, Go.bind.
  rewrite index_out_of_range; [reflexivity|].
  unfold int_sub.
  pose proof (int_wrap_range (size - (o - 2 ^ 64))) as Hr.
  revert Hr. unfold int_wrap.
  change (2 ^ 63)%Z with 9223372036854775808%Z in *.
  change (2 ^ 64)%Z with 18446744073709551616%Z in *.
  intros Hr. Z.div_mod_to_equations. lia.
Qed.

(** ** The resolvers: the claims *)

(** The end-to-end example of the specification, on parsed addresses. *)
Example resolve_behind_two_trusted_hops :
  Resolve (UseCIDRWhitelist {| whitelist := [ten_slash_8] |})
          (ip4 10 0 0 1) [ip4 1 2 3 4; ip4 10 0 0 2]
  = Returns (ip4 10 0 0 2, ip4 1 2 3 4, [], None).
Proof. vm_compute. reflexivity. Qed.

(** C1, which the code does not keep: with offset 0 and an empty
    forwarded chain the combined chain has length 1, one less than
    N + 2, and [Resolve] does not return the configuration error; the
    read at index -1 stops the call with a panic. *)
Theorem offset_resolve_one_short_panics (remote : IP) :
  (len ([] ++ [remote]) < 0 + 2)%Z
  /\ Resolve (UseOffset 0%Z) remote [] = Panics.
Proof.
  split; [reflexivity|].
  cbn [Resolve]. apply offset_resolve_boundary; unfold len, MaxInt; cbn [app length]; lia.
Qed.

(** C7: when the combined chain (forwarded, then remote) has at least
    N + 2 entries, the offset resolver returns the entry at index
    size-N-1 as proxy, the entry at index size-N-2 as trusted remote and
    the entries before index size-N-2 as rest, with no error. *)
Theorem offset_resolve_positions (o : OffsetIPExtractor) (remote : IP) (forwarded : list IP) :
  uint_ok o ->
  (len (forwarded ++ [remote]) <= MaxInt)%Z ->
  (len (forwarded ++ [remote]) >= o + 2)%Z ->
  exists proxy trusted,
    (forwarded ++ [remote]) !! Z.to_nat (len (forwarded ++ [remote]) - o - 1) = Some proxy
    /\ (forwarded ++ [remote]) !! Z.to_nat (len (forwarded ++ [remote]) - o - 2) = Some trusted
    /\ Resolve (UseOffset o) remote forwarded =
       Returns (proxy, trusted,
                take (Z.to_nat (len (forwarded ++ [remote]) - o - 2)) (forwarded ++ [remote]),
                None).
Proof.
  intros Ho Hm Hs. cbn [Resolve]. unfold OffsetIPExtractor_Resolve. cbn [app].
  set (ips := forwarded ++ [remote]) in *.
  unfold uint_ok, MaxInt in *.
  rewrite int_of_uint_small by (unfold MaxInt; lia).
  destruct (Z.leb_spec (len ips) o); [lia|].
  unfold int_sub.
  rewrite (int_wrap_small (len ips - o)) by lia.
  rewrite (int_wrap_small (len ips - o - 1)) by lia.
  rewrite (int_wrap_small (len ips - o - 2)) by lia.
  destruct (lookup_lt_is_Some_2 ips (Z.to_nat (len ips - o - 1))) as [proxy Hp].
  { unfold len in *. lia. }
  destruct (lookup_lt_is_Some_2 ips (Z.to_nat (len ips - o - 2))) as [trusted Ht].
  { unfold len in *. lia. }
  exists proxy, trusted. split; [exact Hp|]. split; [exact Ht|].
  unfold mbind, exec_bind, Go.bind.
  assert (index ips (len ips - o - 1) = Returns proxy) as ->
    by (apply index_in_range; split; [lia | exact Hp]).
  assert (index ips (len ips - o - 2) = Returns trusted) as ->
    by (apply index_in_range; split; [lia | exact Ht]).
  assert (slice_to ips (len ips - o - 2)
          = Returns (take (Z.to_nat (len ips - o - 2)) ips)) as ->
    by (apply slice_to_in_range; split; [lia | reflexivity]).
  reflexivity.
Qed.

(** The example of the specification: offset 0, forwarded [A; B], remote R. *)
Lemma offset_resolve_positions_witness :
  Resolve (UseOffset 0%Z) (ip4 9 9 9 9) [ip4 1 1 1 1; ip4 2 2 2 2]
  = Returns (ip4 9 9 9 9, ip4 2 2 2 2, [ip4 1 1 1 1], None).
Proof.
  destruct (offset_resolve_positions 0%Z (ip4 9 9 9 9) [ip4 1 1 1 1; ip4 2 2 2 2])
    as (proxy & trusted & Hp & Ht & ->).
  - unfold uint_ok. lia.
  - vm_compute. discriminate.
  - vm_compute. discriminate.
  - cbn in Hp, Ht. injection Hp as <-. injection Ht as <-. reflexivity.
Defined.

(** C6: the whitelist resolver returns, with no error, the one result of
    the walk of the specification from (absent proxy, remote, chain); the
    rest is a prefix of the chain; and a remote in no prefix of the
    whitelist gives an absent proxy, the remote itself and the whole chain. *)
Theorem cidr_resolve_is_walk (W : CIDRWhitelist) (remote : IP) (C : list IP) :
  exists proxy trusted rest,
    Resolve (UseCIDRWhitelist W) remote C = Returns (proxy, trusted, rest, None)
    /\ Spec.walk W nil_IP remote C (proxy, trusted, rest)
    /\ (forall res, Spec.walk W nil_IP remote C res -> res = (proxy, trusted, rest))
    /\ rest `prefix_of` C
    /\ (~ Spec.in_some_prefix W remote ->
        proxy = nil_IP /\ trusted = remote /\ rest = C).
Proof.
  pose proof (Resolve_loop_walk W nil_IP remote C) as Hw.
  cbn [Resolve]. rewrite CIDRWhitelist_Resolve_returns.
  destruct (Resolve_loop W nil_IP remote C) as [[proxy trusted] rest] eqn:E.
  cbn [fst snd]. exists proxy, trusted, rest.
  split; [reflexivity|]. split; [exact Hw|]. split; [|split].
  - intros res Hres. eapply walk_functional; eassumption.
  - apply (walk_rest_prefix _ _ _ _ _ Hw).
  - intros Hc.
    pose proof (walk_functional _ _ _ _ _ _ Hw (Spec.walk_untrusted W nil_IP remote C Hc)) as Heq.
    injection Heq as -> -> ->. auto.
Qed.

(** C2 as the specification has it fails: a remote that is not trusted
    and that names itself in the forwarded chain is returned as trusted
    remote and is still in the rest. *)
Lemma residual_may_hold_trusted_remote :
  ~ (forall (e : IPExtractor) (remote : IP) (forwarded : list IP)
            (proxy trusted : IP) (rest : list IP),
        Resolve e remote forwarded = Returns (proxy, trusted, rest, None) ->
        (proxy ∉ rest) /\ (trusted ∉ rest)).
Proof.
  intros H.
  destruct (H (UseCIDRWhitelist {| whitelist := [] |}) (ip4 1 2 3 4) [ip4 1 2 3 4]
              nil_IP (ip4 1 2 3 4) [ip4 1 2 3 4]) as [_ Hn].
  - vm_compute. reflexivity.
  - apply Hn. left.
Qed.

(** C2, amended: after a successful [Resolve] of either resolver the
    combined chain is the rest, then the trusted remote, then the hops
    taken as proxies, of which the returned proxy (when there is one) is
    the first; so when no address occurs twice in the combined chain the
    rest holds neither the trusted remote nor the proxy. *)
Theorem residual_excludes_proxy_and_remote (e : IPExtractor) (remote : IP)
    (forwarded : list IP) (proxy trusted : IP) (rest : list IP) :
  Resolve e remote forwarded = Returns (proxy, trusted, rest, None) ->
  exists consumed,
    forwarded ++ [remote] = rest ++ trusted :: consumed
    /\ (proxy <> nil_IP -> exists more, consumed = proxy :: more)
    /\ (NoDup (forwarded ++ [remote]) ->
        (trusted ∉ rest) /\ (proxy <> nil_IP -> proxy ∉ rest)).
Proof.
  intros HR.
  assert (exists consumed,
             forwarded ++ [remote] = rest ++ trusted :: consumed
             /\ (proxy <> nil_IP -> exists more, consumed = proxy :: more))
    as (consumed & Heq & Hp).
  { destruct e as [W | o]; cbn [Resolve] in HR.
    - rewrite CIDRWhitelist_Resolve_returns in HR.
      pose proof (walk_split _ _ _ _ _ (Resolve_loop_walk W nil_IP remote forwarded))
        as (consumed & Heq & Hcons).
      injection HR as Hp Ht Hr. rewrite Hp, Ht, Hr in *.
      exists consumed. split; [exact Heq|].
      intros Hne. destruct Hcons as [[_ Hnil] | Hmore]; [congruence | exact Hmore].
    - apply offset_resolve_inv in HR as (k & Hp & Ht & ->); [|reflexivity].
      exists (drop (S k) (forwarded ++ [remote])). split.
      + symmetry. apply take_drop_middle. exact Ht.
      + intros _. exists (drop (S (S k)) (forwarded ++ [remote])).
        apply drop_S. exact Hp. }
  exists consumed. split; [exact Heq|]. split; [exact Hp|].
  intros Hnd. rewrite Heq in Hnd.
  apply NoDup_app in Hnd as (_ & Hdisj & _).
  split.
  - intros Hin. apply (Hdisj _ Hin). left.
  - intros Hne Hin. destruct (Hp Hne) as [more ->].
    apply (Hdisj _ Hin). right. left.
Qed.

Lemma residual_excludes_proxy_and_remote_witness :
  (ip4 1 2 3 4 ∉ ([] : list IP)) /\ (ip4 10 0 0 2 ∉ ([] : list IP)).
Proof.
  destruct (residual_excludes_proxy_and_remote
              (UseCIDRWhitelist {| whitelist := [ten_slash_8] |})
              (ip4 10 0 0 1) [ip4 1 2 3 4; ip4 10 0 0 2]
              (ip4 10 0 0 2) (ip4 1 2 3 4) [])
    as (consumed & _ & _ & Hnd).
  - vm_compute. reflexivity.
  - destruct Hnd as [Ht Hp].
    + apply (bool_decide_unpack _). vm_compute. exact I.
    + split; [exact Ht | apply Hp; discriminate].
Defined.

(** ** The trusted view: host and protocol *)

Lemma is_empty_true (s : string) : is_empty s = true <-> s = EmptyString.
Proof. unfold is_empty. apply String.eqb_eq. Qed.

Lemma is_empty_false (s : string) : is_empty s = false <-> s <> EmptyString.
Proof. unfold is_empty. apply String.eqb_neq. Qed.

(** Comparing the lowered texts is comparing without regard to case. *)
Lemma eqb_ToLower (a b : string) :
  String.eqb (strings.ToLower a) (strings.ToLower b) = Spec.same_ignoring_case a b.
Proof.
  revert b. induction a as [|x a IH]; intros [|y b]; cbn; try reflexivity.
  rewrite IH. destruct (Ascii.eqb (strings.lower x) (strings.lower y)); reflexivity.
Qed.

Lemma eqb_ToLower_const (a b : string) :
  strings.ToLower b = b ->
  String.eqb (strings.ToLower a) b = Spec.same_ignoring_case a b.
Proof. intros Hb. rewrite <- Hb at 1. apply eqb_ToLower. Qed.

(** [GetTrustedHost] hands out a filled cache, or computes the host of
    the specification and stores it. *)
Lemma GetTrustedHost_cases (f : forwardedRequest) :
  (trustedHost f <> EmptyString /\ GetTrustedHost f = (trustedHost f, f))
  \/ (trustedHost f = EmptyString
      /\ GetTrustedHost f = (host_of f, set_trustedHost f (host_of f))).
Proof.
  unfold GetTrustedHost.
  destruct (is_empty (trustedHost f)) eqn:E; cbn [negb].
  - right. split; [apply is_empty_true; exact E|].
    unfold host_of, Spec.trusted_host, IsBehindProxy, raw_host, forwarded_host.
    destruct (is_nil (proxyIP f)); cbn [negb]; [reflexivity|].
    destruct (is_empty (http.Header_Get (http.Header_of (Request f)) "X-Forwarded-Host"));
      reflexivity.
  - left. split; [apply is_empty_false; exact E | reflexivity].
Qed.

Lemma tls_proto_default (f : forwardedRequest) :
  tls_proto f = Spec.tls_default (secured f).
Proof. unfold tls_proto, secured, Spec.tls_default. destruct (http.TLS (Request f)); reflexivity. Qed.

Lemma GetTrustedProto_cases (f : forwardedRequest) :
  (trustedProto f <> EmptyString /\ GetTrustedProto f = (trustedProto f, f))
  \/ (trustedProto f = EmptyString
      /\ GetTrustedProto f = (proto_of f, set_trustedProto f (proto_of f))).
Proof.
  unfold GetTrustedProto.
  destruct (is_empty (trustedProto f)) eqn:E; cbn [negb].
  - right. split; [apply is_empty_true; exact E|].
    unfold proto_of, Spec.trusted_proto, IsBehindProxy, forwarded_proto.
    rewrite tls_proto_default.
    destruct (is_nil (proxyIP f)); cbn [negb]; [reflexivity|].
    rewrite !eqb_ToLower_const by reflexivity.
    set (x := http.Header_Get (http.Header_of (Request f)) "X-Forwarded-Proto").
    destruct (Spec.same_ignoring_case x "http" || Spec.same_ignoring_case x "ws");
      [reflexivity|].
    destruct (Spec.same_ignoring_case x "https" || Spec.same_ignoring_case x "wss");
      reflexivity.
  - left. split; [apply is_empty_false; exact E | reflexivity].
Qed.

(** The protocol of the specification is never the empty text. *)
Lemma proto_of_not_empty (f : forwardedRequest) : proto_of f <> EmptyString.
Proof.
  unfold proto_of, Spec.trusted_proto, Spec.tls_default.
  repeat match goal with |- context [if ?b then _ else _] => destruct b end; discriminate.
Qed.

Lemma GetTrustedProto_not_empty (f : forwardedRequest) :
  (GetTrustedProto f).1 <> EmptyString.
Proof.
  destruct (GetTrustedProto_cases f) as [[Hne ->] | [_ ->]]; cbn [fst].
  - exact Hne.
  - apply proto_of_not_empty.
Qed.

(** After a call the protocol is in the cache. *)
Lemma GetTrustedProto_cached (f : forwardedRequest) :
  trustedProto (GetTrustedProto f).2 = (GetTrustedProto f).1.
Proof.
  destruct (GetTrustedProto_cases f) as [[_ ->] | [_ ->]]; reflexivity.
Qed.

Lemma GetTrustedHost_cached (f : forwardedRequest) :
  trustedHost (GetTrustedHost f).2 = (GetTrustedHost f).1.
Proof.
  destruct (GetTrustedHost_cases f) as [[_ ->] | [_ ->]]; reflexivity.
Qed.

(** ** The trusted view: the caches agree with the specification *)

Lemma same_inputs_refl (f : forwardedRequest) : same_inputs f f.
Proof. repeat split. Qed.

Lemma same_inputs_trans (f g h : forwardedRequest) :
  same_inputs f g -> same_inputs g h -> same_inputs f h.
Proof.
  intros (A1 & A2 & A3 & A4) (B1 & B2 & B3 & B4).
  repeat split; congruence.
Qed.

Lemma same_inputs_host (f f' : forwardedRequest) :
  same_inputs f f' -> host_of f' = host_of f.
Proof.
  intros (A1 & A2 & _).
  unfold host_of, IsBehindProxy, raw_host, forwarded_host. rewrite A1, A2. reflexivity.
Qed.

Lemma same_inputs_proto (f f' : forwardedRequest) :
  same_inputs f f' -> proto_of f' = proto_of f.
Proof.
  intros (A1 & A2 & _).
  unfold proto_of, IsBehindProxy, secured, forwarded_proto. rewrite A1, A2. reflexivity.
Qed.

Lemma same_inputs_url (f f' : forwardedRequest) (u0 : url.URL) :
  same_inputs f f' -> url_of f' u0 = url_of f u0.
Proof.
  intros H. unfold url_of.
  rewrite (same_inputs_host _ _ H), (same_inputs_proto _ _ H). reflexivity.
Qed.

Section ViewProperties.

Variable IP_String : IP -> string.
Variable url_reparse : url.URL -> option url.URL.

Lemma same_inputs_request (f f' : forwardedRequest) (u0 : url.URL) :
  same_inputs f f' -> request_of IP_String f' u0 = request_of IP_String f u0.
Proof.
  intros H. pose proof H as (A1 & A2 & A3 & A4).
  unfold request_of, trusted_headers.
  rewrite (same_inputs_host _ _ H), (same_inputs_url _ _ _ H), A1, A3, A4. reflexivity.
Qed.

Lemma caches_agree_same_inputs (f f' : forwardedRequest) :
  same_inputs f f' ->
  trustedHost f' = trustedHost f -> trustedProto f' = trustedProto f ->
  trustedURL f' = trustedURL f -> trustedRequest f' = trustedRequest f ->
  caches_agree IP_String url_reparse f -> caches_agree IP_String url_reparse f'.
Proof.
  intros H Eh Ep Eu Er (C1 & C2 & C3 & C4). pose proof H as (A1 & _).
  unfold caches_agree.
  rewrite Eh, Ep, Eu, Er, A1, (same_inputs_host _ _ H), (same_inputs_proto _ _ H).
  repeat split; try assumption.
  - intros u Hu. destruct (C3 u Hu) as (u0 & ? & ->).
    exists u0. rewrite (same_inputs_url _ _ _ H). auto.
  - intros r Hr. destruct (C4 r Hr) as (u0 & ? & ->).
    exists u0. rewrite (same_inputs_request _ _ _ H). auto.
Qed.

(** The view that a middleware builds has nothing in its caches. *)
Lemma caches_agree_new (r : http.Request) (proxy trustedRemote : IP) (restIps : list IP) :
  caches_agree IP_String url_reparse (set_resolution (new_view r) proxy trustedRemote restIps).
Proof.
  unfold caches_agree. cbn.
  repeat split; try (left; reflexivity); intros ? [=].
Qed.

Lemma GetTrustedHost_ok (f : forwardedRequest) :
  caches_agree IP_String url_reparse f ->
  (GetTrustedHost f).1 = host_of f
  /\ caches_agree IP_String url_reparse (GetTrustedHost f).2
  /\ same_inputs f (GetTrustedHost f).2.
Proof.
  intros Hag. pose proof Hag as (C1 & C2 & C3 & C4).
  destruct (GetTrustedHost_cases f) as [[Hne ->] | [He ->]]; cbn [fst snd].
  - split; [destruct C1; congruence|]. split; [exact Hag | apply same_inputs_refl].
  - split; [reflexivity|]. split; [|repeat split].
    unfold caches_agree. repeat split; [right; reflexivity | exact C2 | exact C3 | exact C4].
Qed.

Lemma GetTrustedProto_ok (f : forwardedRequest) :
  caches_agree IP_String url_reparse f ->
  (GetTrustedProto f).1 = proto_of f
  /\ caches_agree IP_String url_reparse (GetTrustedProto f).2
  /\ same_inputs f (GetTrustedProto f).2.
Proof.
  intros Hag. pose proof Hag as (C1 & C2 & C3 & C4).
  destruct (GetTrustedProto_cases f) as [[Hne ->] | [He ->]]; cbn [fst snd].
  - split; [destruct C2; congruence|]. split; [exact Hag | apply same_inputs_refl].
  - split; [reflexivity|]. split; [|repeat split].
    unfold caches_agree. repeat split; [exact C1 | right; reflexivity | exact C3 | exact C4].
Qed.

(** [GetTrustedURL] returns only when the raw URL can be read again. *)
Lemma GetTrustedURL_inv (f f' : forwardedRequest) (u : url.URL) :
  caches_agree IP_String url_reparse f ->
  GetTrustedURL url_reparse f = Returns (u, f') ->
  exists u0, url_reparse (http.URL (Request f)) = Some u0.
Proof.
  intros (_ & _ & C3 & _). unfold GetTrustedURL.
  destruct (trustedURL f) as [u1|] eqn:E.
  - intros _. destruct (C3 u1 eq_refl) as (u0 & H & _). eauto.
  - destruct (GetTrustedHost f) as [h f1].
    destruct (url_reparse (http.URL (Request f))) as [u0|]; [eauto | discriminate].
Qed.

Lemma GetTrustedURL_ok (f : forwardedRequest) (u0 : url.URL) :
  caches_agree IP_String url_reparse f ->
  url_reparse (http.URL (Request f)) = Some u0 ->
  exists f',
    GetTrustedURL url_reparse f = Returns (url_of f u0, f')
    /\ caches_agree IP_String url_reparse f'
    /\ same_inputs f f'.
Proof.
  intros Hag Hre. pose proof Hag as (C1 & C2 & C3 & C4).
  unfold GetTrustedURL.
  destruct (trustedURL f) as [u1|] eqn:E.
  - destruct (C3 u1 eq_refl) as (u0' & H & ->).
    assert (u0' = u0) as -> by congruence.
    exists f. split; [reflexivity|]. split; [exact Hag | apply same_inputs_refl].
  - rewrite Hre.
    destruct (GetTrustedHost_ok f Hag) as (Hh & Hag1 & Hs1).
    destruct (GetTrustedHost f) as [h f1]. cbn [fst snd] in *.
    destruct (GetTrustedProto_ok f1 Hag1) as (Hp & Hag2 & Hs2).
    destruct (GetTrustedProto f1) as [p f2]. cbn [fst snd] in *.
    pose proof (same_inputs_trans _ _ _ Hs1 Hs2) as Hs.
    assert (url.set_Scheme (url.set_Host u0 h) p = url_of f u0) as Hu.
    { unfold url_of. rewrite Hh, Hp, (same_inputs_proto _ _ Hs1). reflexivity. }
    rewrite Hu. eexists. split; [reflexivity|]. split; [|exact Hs].
    destruct Hag2 as (D1 & D2 & D3 & D4). pose proof Hs as (A1 & _).
    unfold caches_agree. cbn.
    repeat split; [exact D1 | exact D2 | | exact D4].
    intros u [= <-]. exists u0. rewrite A1.
    split; [exact Hre|]. symmetry. apply (same_inputs_url _ _ _ Hs).
Qed.

Lemma canonical_forwarded_for :
  http.CanonicalMIMEHeaderKey "X-Forwarded-For" = "X-Forwarded-For"%string.
Proof. vm_compute. reflexivity. Qed.

Lemma canonical_forwarded_host :
  http.CanonicalMIMEHeaderKey "X-Forwarded-Host" = "X-Forwarded-Host"%string.
Proof. vm_compute. reflexivity. Qed.

Lemma canonical_forwarded_proto :
  http.CanonicalMIMEHeaderKey "X-Forwarded-Proto" = "X-Forwarded-Proto"%string.
Proof. vm_compute. reflexivity. Qed.

(** The key of [X-Real-IP] in a header is written [X-Real-Ip]. *)
Lemma canonical_real_ip :
  http.CanonicalMIMEHeaderKey "X-Real-IP" = "X-Real-Ip"%string.
Proof. vm_compute. reflexivity. Qed.

Lemma len_pos_cons {A} (s : list A) :
  (len s >? 0)%Z = match s with [] => false | _ :: _ => true end.
Proof.
  unfold len. destruct s; cbn [length]; [reflexivity|].
  destruct (Z.gtb_spec (Z.of_nat (S (length s))) 0); [reflexivity | lia].
Qed.

Lemma GetTrustedRequest_inv (f f' : forwardedRequest) (r : http.Request) :
  caches_agree IP_String url_reparse f ->
  GetTrustedRequest IP_String url_reparse f = Returns (r, f') ->
  exists u0, url_reparse (http.URL (Request f)) = Some u0.
Proof.
  intros Hag. pose proof Hag as (_ & _ & _ & C4). unfold GetTrustedRequest.
  destruct (trustedRequest f) as [r1|] eqn:E.
  - intros _. destruct (C4 r1 eq_refl) as (u0 & H & _). eauto.
  - destruct (GetTrustedHost_ok f Hag) as (_ & Hag1 & (A1 & _)).
    destruct (GetTrustedHost f) as [h f1]. cbn [fst snd] in *.
    unfold mbind, exec_bind, Go.bind.
    destruct (GetTrustedURL url_reparse f1) as [[u f2]|] eqn:EU; [|discriminate].
    intros _. rewrite <- A1. eapply GetTrustedURL_inv; eassumption.
Qed.

Lemma GetTrustedRequest_ok (f : forwardedRequest) (u0 : url.URL) :
  caches_agree IP_String url_reparse f ->
  url_reparse (http.URL (Request f)) = Some u0 ->
  exists f',
    GetTrustedRequest IP_String url_reparse f = Returns (request_of IP_String f u0, f')
    /\ caches_agree IP_String url_reparse f'
    /\ same_inputs f f'.
Proof.
  intros Hag Hre. pose proof Hag as (C1 & C2 & C3 & C4).
  unfold GetTrustedRequest.
  destruct (trustedRequest f) as [r1|] eqn:E.
  - destruct (C4 r1 eq_refl) as (u0' & H & ->).
    assert (u0' = u0) as -> by congruence.
    exists f. split; [reflexivity|]. split; [exact Hag | apply same_inputs_refl].
  - destruct (GetTrustedHost_ok f Hag) as (Hh & Hag1 & Hs1).
    destruct (GetTrustedHost f) as [h f1]. cbn [fst snd] in *.
    pose proof Hs1 as (A1 & _).
    destruct (GetTrustedURL_ok f1 u0 Hag1) as (f2 & HU & Hag2 & Hs2).
    { rewrite A1. exact Hre. }
    rewrite HU. unfold mbind, exec_bind, Go.bind.
    pose proof (same_inputs_trans _ _ _ Hs1 Hs2) as Hs.
    pose proof Hs as (B1 & B2 & B3 & B4).
    match goal with |- exists f', Returns (?r, _) = _ /\ _ =>
      assert (r = request_of IP_String f u0) as Hr end.
    { unfold request_of, trusted_headers, http.Clone, GetTrustedRemoteAddr,
        http.set_Header, http.set_RemoteAddr, http.set_URL, http.set_Host,
        http.Header_Set, http.Header_Del. cbn.
      rewrite canonical_forwarded_for, canonical_forwarded_host, canonical_forwarded_proto.
      rewrite len_pos_cons, B3, B4, Hh, (same_inputs_url _ _ _ Hs1).
      destruct (trustedForwardedFor f); reflexivity. }
    rewrite Hr. eexists. split; [reflexivity|]. split; [|exact Hs].
    destruct Hag2 as (D1 & D2 & D3 & D4).
    unfold caches_agree. cbn.
    repeat split; [exact D1 | exact D2 | exact D3 |].
    intros r [= <-]. exists u0. rewrite B1.
    split; [exact Hre|]. symmetry. apply (same_inputs_request _ _ _ Hs).
Qed.

(** Appending the texts one by one is mapping the chain to its texts. *)
Lemma fold_append_map (l : list IP) (acc : list string) :
  fold_left (fun ips ip => ips ++ [IP_String ip]) l acc = acc ++ map IP_String l.
Proof.
  revert acc. induction l as [|x l IH]; intros acc; cbn.
  - rewrite app_nil_r. reflexivity.
  - rewrite IH, <- app_assoc. reflexivity.
Qed.

Lemma BuildRequestForForward_inv (strip : bool) (f f' : forwardedRequest) (r : http.Request) :
  caches_agree IP_String url_reparse f ->
  BuildRequestForForward IP_String url_reparse strip f = Returns (r, f') ->
  exists u0, url_reparse (http.URL (Request f)) = Some u0.
Proof.
  intros Hag. unfold BuildRequestForForward.
  destruct (GetTrustedHost_ok f Hag) as (_ & Hag1 & (A1 & _)).
  destruct (GetTrustedHost f) as [h f1]. cbn [fst snd] in *.
  unfold mbind, exec_bind, Go.bind.
  destruct (GetTrustedURL url_reparse f1) as [[u f2]|] eqn:EU; [|discriminate].
  intros _. rewrite <- A1. eapply GetTrustedURL_inv; eassumption.
Qed.

Lemma BuildRequestForForward_ok (strip : bool) (f : forwardedRequest) (u0 : url.URL) :
  caches_agree IP_String url_reparse f ->
  url_reparse (http.URL (Request f)) = Some u0 ->
  exists f',
    BuildRequestForForward IP_String url_reparse strip f =
    Returns ({| http.Method := http.Method (Request f);
                http.URL := url_of f u0;
                http.Header_of := forward_headers IP_String strip f;
                http.Host := host_of f;
                http.RemoteAddr := http.RemoteAddr (Request f);
                http.TLS := http.TLS (Request f) |}, f')
    /\ caches_agree IP_String url_reparse f'
    /\ same_inputs f f'.
Proof.
  intros Hag Hre. unfold BuildRequestForForward.
  destruct (GetTrustedHost_ok f Hag) as (Hh & Hag1 & Hs1).
  destruct (GetTrustedHost f) as [h f1]. cbn [fst snd] in *.
  pose proof Hs1 as (A1 & _).
  destruct (GetTrustedURL_ok f1 u0 Hag1) as (f2 & HU & Hag2 & Hs2).
  { rewrite A1. exact Hre. }
  rewrite HU. unfold mbind, exec_bind, Go.bind.
  pose proof (same_inputs_trans _ _ _ Hs1 Hs2) as Hs12.
  destruct (GetTrustedHost_ok f2 Hag2) as (Hh3 & Hag3 & Hs3).
  destruct (GetTrustedHost f2) as [h3 f3]. cbn [fst snd] in *.
  pose proof (same_inputs_trans _ _ _ Hs12 Hs3) as Hs13.
  destruct (GetTrustedProto_ok f3 Hag3) as (Hp4 & Hag4 & Hs4).
  destruct (GetTrustedProto f3) as [p4 f4]. cbn [fst snd] in *.
  pose proof (same_inputs_trans _ _ _ Hs13 Hs4) as Hs14.
  exists f4. split; [|split; assumption].
  pose proof Hs12 as (B1 & B2 & B3 & B4).
  f_equal. f_equal.
  unfold forward_headers, forwarded_texts, http.Clone, GetTrustedRemoteAddr,
    GetTrustedForwardedFor, http.set_Header, http.set_RemoteAddr, http.set_URL,
    http.set_Host, http.Header_Set, http.Header_Del. cbn.
  rewrite canonical_forwarded_for, canonical_forwarded_host, canonical_forwarded_proto,
    canonical_real_ip.
  rewrite Hh, Hh3, Hp4, (same_inputs_host _ _ Hs12), (same_inputs_proto _ _ Hs13),
    (same_inputs_url _ _ _ Hs1), B3, B4.
  destruct strip; cbn [negb]; [reflexivity|].
  rewrite fold_append_map. reflexivity.
Qed.

(** Every trusted view has caches that agree with the specification. *)
Lemma trusted_view_agrees (f : forwardedRequest) :
  trusted_view IP_String url_reparse f -> caches_agree IP_String url_reparse f.
Proof.
  induction 1 as [r proxy remote rest | m f f' Hv IH Hcall].
  - apply caches_agree_new.
  - destruct m; cbn [after] in Hcall.
    + injection Hcall as <-. apply GetTrustedHost_ok. exact IH.
    + injection Hcall as <-. apply GetTrustedProto_ok. exact IH.
    + unfold fmap, exec_fmap, Go.bind in Hcall.
      destruct (GetTrustedURL url_reparse f) as [[u f1]|] eqn:E; [|discriminate].
      injection Hcall as <-.
      destruct (GetTrustedURL_inv _ _ _ IH E) as (u0 & Hre).
      destruct (GetTrustedURL_ok f u0 IH Hre) as (f2 & E2 & Hag & _).
      rewrite E in E2. injection E2 as _ <-. exact Hag.
    + unfold fmap, exec_fmap, Go.bind in Hcall.
      destruct (GetTrustedRequest IP_String url_reparse f) as [[u f1]|] eqn:E; [|discriminate].
      injection Hcall as <-.
      destruct (GetTrustedRequest_inv _ _ _ IH E) as (u0 & Hre).
      destruct (GetTrustedRequest_ok f u0 IH Hre) as (f2 & E2 & Hag & _).
      rewrite E in E2. injection E2 as _ <-. exact Hag.
    + unfold fmap, exec_fmap, Go.bind in Hcall.
      destruct (BuildRequestForForward IP_String url_reparse stripForwardedIPs f)
        as [[u f1]|] eqn:E; [|discriminate].
      injection Hcall as <-.
      destruct (BuildRequestForForward_inv _ _ _ _ IH E) as (u0 & Hre).
      destruct (BuildRequestForForward_ok stripForwardedIPs f u0 IH Hre) as (f2 & E2 & Hag & _).
      rewrite E in E2. injection E2 as _ <-. exact Hag.
Qed.

(** ** The trusted view: the claims *)

(** C8: behind a trusted proxy [GetTrustedProto] reads [X-Forwarded-Proto]
    without regard to case, "http" and "ws" giving "http", "https" and
    "wss" giving "https", any other or missing value the default of the
    connection ("https" with TLS, "http" without); when not behind a proxy
    it gives that default. *)
Theorem trusted_proto_follows_header (f : forwardedRequest) :
  trusted_view IP_String url_reparse f ->
  (GetTrustedProto f).1
  = Spec.trusted_proto (IsBehindProxy f) (secured f) (forwarded_proto f).
Proof.
  intros Hv. apply trusted_view_agrees in Hv.
  destruct (GetTrustedProto_ok f Hv) as (-> & _). reflexivity.
Qed.

(** What [GetTrustedRequest] returns for a view whose raw URL reads back
    from its text: a copy of the raw request with the trusted host, the
    trusted URL, the text of the trusted remote address, and with
    [X-Forwarded-For] holding the first address of the rest alone when
    there is one, or else with no [X-Forwarded-For], [X-Forwarded-Host]
    and [X-Forwarded-Proto] at all; nothing else of the request changes. *)
Theorem trusted_request_shape (f : forwardedRequest) (u0 : url.URL) :
  trusted_view IP_String url_reparse f ->
  url_reparse (http.URL (Request f)) = Some u0 ->
  exists req f',
    GetTrustedRequest IP_String url_reparse f = Returns (req, f')
    /\ http.Host req = (GetTrustedHost f).1
    /\ fst <$> GetTrustedURL url_reparse f = Returns (http.URL req)
    /\ http.RemoteAddr req = IP_String (GetTrustedRemoteAddr f)
    /\ http.Method req = http.Method (Request f)
    /\ http.TLS req = http.TLS (Request f)
    /\ match GetTrustedForwardedFor f with
       | first :: _ =>
           http.Header_Values (http.Header_of req) "X-Forwarded-For" = [IP_String first]
           /\ (forall k : string, k <> "X-Forwarded-For"%string ->
               http.Header_of req !! k = http.Header_of (Request f) !! k)
       | [] =>
           http.Header_of req !! "X-Forwarded-For"%string = None
           /\ http.Header_of req !! "X-Forwarded-Host"%string = None
           /\ http.Header_of req !! "X-Forwarded-Proto"%string = None
           /\ (forall k : string,
                 k <> "X-Forwarded-For"%string -> k <> "X-Forwarded-Host"%string ->
                 k <> "X-Forwarded-Proto"%string ->
                 http.Header_of req !! k = http.Header_of (Request f) !! k)
       end.
Proof.
  intros Hv Hre. apply trusted_view_agrees in Hv.
  destruct (GetTrustedRequest_ok f u0 Hv Hre) as (f' & HR & _ & _).
  destruct (GetTrustedHost_ok f Hv) as (Hh & _ & _).
  destruct (GetTrustedURL_ok f u0 Hv Hre) as (f2 & HU & _ & _).
  exists (request_of IP_String f u0), f'.
  split; [exact HR|]. split; [symmetry; exact Hh|].
  split; [rewrite HU; reflexivity|].
  split; [reflexivity|]. split; [reflexivity|]. split; [reflexivity|].
  unfold GetTrustedForwardedFor. cbn [request_of http.Header_of]. unfold trusted_headers.
  destruct (trustedForwardedFor f) as [|first rest].
  - split; [|split; [|split]].
    + rewrite !lookup_delete_ne by discriminate. apply lookup_delete_eq.
    + rewrite lookup_delete_ne by discriminate. apply lookup_delete_eq.
    + apply lookup_delete_eq.
    + intros k H1 H2 H3. rewrite !lookup_delete_ne by congruence. reflexivity.
  - split.
    + unfold http.Header_Values. rewrite canonical_forwarded_for, lookup_insert_eq. reflexivity.
    + intros k Hk. rewrite lookup_insert_ne by congruence. reflexivity.
Qed.

(** What [BuildRequestForForward] returns for a view whose raw URL reads
    back from its text: a copy of the raw request with the trusted host
    and URL, with the former [X-Forwarded-For], [X-Forwarded-Host],
    [X-Forwarded-Proto] and [X-Real-IP] gone, with [X-Forwarded-For] set
    to the texts of the rest followed by the trusted remote, joined with
    ", ", or to the trusted remote alone when the flag is set, and with
    [X-Forwarded-Host] and [X-Forwarded-Proto] set to the trusted host and
    protocol. *)
Theorem forward_request_shape (stripForwardedIPs : bool) (f : forwardedRequest)
    (u0 : url.URL) :
  trusted_view IP_String url_reparse f ->
  url_reparse (http.URL (Request f)) = Some u0 ->
  exists req f',
    BuildRequestForForward IP_String url_reparse stripForwardedIPs f = Returns (req, f')
    /\ http.Host req = (GetTrustedHost f).1
    /\ fst <$> GetTrustedURL url_reparse f = Returns (http.URL req)
    /\ http.Header_Values (http.Header_of req) "X-Forwarded-For"
       = [strings.Join
            ((if stripForwardedIPs then []
              else map IP_String (GetTrustedForwardedFor f))
             ++ [IP_String (GetTrustedRemoteAddr f)]) ", "]
    /\ http.Header_Values (http.Header_of req) "X-Forwarded-Host" = [(GetTrustedHost f).1]
    /\ http.Header_Values (http.Header_of req) "X-Forwarded-Proto" = [(GetTrustedProto f).1]
    /\ http.Header_Values (http.Header_of req) "X-Real-IP" = []
    /\ (forall k : string,
          k <> "X-Forwarded-For"%string -> k <> "X-Forwarded-Host"%string ->
          k <> "X-Forwarded-Proto"%string -> k <> "X-Real-Ip"%string ->
          http.Header_of req !! k = http.Header_of (Request f) !! k)
    /\ http.Method req = http.Method (Request f)
    /\ http.RemoteAddr req = http.RemoteAddr (Request f)
    /\ http.TLS req = http.TLS (Request f).
Proof.
  intros Hv Hre. apply trusted_view_agrees in Hv.
  destruct (BuildRequestForForward_ok stripForwardedIPs f u0 Hv Hre) as (f' & HB & _ & _).
  destruct (GetTrustedHost_ok f Hv) as (Hh & _ & _).
  destruct (GetTrustedProto_ok f Hv) as (Hp & _ & _).
  destruct (GetTrustedURL_ok f u0 Hv Hre) as (f2 & HU & _ & _).
  eexists _, f'. split; [exact HB|]. cbn [http.Host http.URL http.Header_of
    http.Method http.RemoteAddr http.TLS].
  split; [symmetry; exact Hh|]. split; [rewrite HU; reflexivity|].
  unfold http.Header_Values, forward_headers.
  rewrite canonical_forwarded_for, canonical_forwarded_host, canonical_forwarded_proto,
    canonical_real_ip, Hh, Hp.
  split; [|split; [|split; [|split; [|split]]]].
  - rewrite !lookup_insert_ne by discriminate. rewrite lookup_insert_eq. reflexivity.
  - rewrite lookup_insert_ne by discriminate. rewrite lookup_insert_eq. reflexivity.
  - rewrite lookup_insert_eq. reflexivity.
  - rewrite !lookup_insert_ne by discriminate. rewrite lookup_delete_eq. reflexivity.
  - intros k H1 H2 H3 H4.
    rewrite !lookup_insert_ne by congruence. rewrite !lookup_delete_ne by congruence.
    reflexivity.
  - auto.
Qed.

End ViewProperties.

Lemma trusted_proto_follows_header_witness :
  (GetTrustedProto wss_view).1 = "https"%string.
Proof.
  rewrite (trusted_proto_follows_header dotted.IP_String Some wss_view).
  - vm_compute. reflexivity.
  - apply view_resolved.
Defined.

(** The other cases of the specification: "ws" gives "http", and a
    missing header on a TLS connection gives "https". *)
Example trusted_proto_ws_and_tls :
  Spec.trusted_proto true false "ws" = "http"%string
  /\ Spec.trusted_proto true true EmptyString = "https"%string
  /\ Spec.trusted_proto true false "WsS" = "https"%string
  /\ Spec.trusted_proto true true "gopher" = "https"%string
  /\ Spec.trusted_proto false false "https" = "http"%string.
Proof. repeat split. Qed.

Lemma trusted_request_shape_witness :
  exists req f',
    GetTrustedRequest dotted.IP_String Some end_to_end_view = Returns (req, f')
    /\ http.RemoteAddr req = "1.2.3.4"%string
    /\ http.Header_of req !! "X-Forwarded-For"%string = None.
Proof.
  destruct (trusted_request_shape dotted.IP_String Some end_to_end_view root_url)
    as (req & f' & HR & _ & _ & Hra & _ & _ & Hh).
  - apply view_resolved.
  - reflexivity.
  - exists req, f'. split; [exact HR|]. split.
    + rewrite Hra. vm_compute. reflexivity.
    + cbn in Hh. exact (proj1 Hh).
Defined.

Lemma forward_request_shape_witness :
  exists req f',
    BuildRequestForForward dotted.IP_String Some false two_hop_view = Returns (req, f')
    /\ http.Header_Values (http.Header_of req) "X-Forwarded-For"
       = ["7.7.7.7, 8.8.8.8, 1.2.3.4"%string]
    /\ http.Header_Values (http.Header_of req) "X-Real-IP" = [].
Proof.
  destruct (forward_request_shape dotted.IP_String Some false two_hop_view root_url)
    as (req & f' & HB & _ & _ & Hxff & _ & _ & Hreal & _).
  - apply view_resolved.
  - reflexivity.
  - exists req, f'. split; [exact HB|]. split; [|exact Hreal].
    rewrite Hxff. vm_compute. reflexivity.
Defined.

(** With the flag set the header names the trusted remote alone. *)
Example forward_request_stripped :
  (fun r => http.Header_Values (http.Header_of r.1) "X-Forwarded-For")
    <$> BuildRequestForForward dotted.IP_String Some true two_hop_view
  = Returns ["1.2.3.4"%string].
Proof. vm_compute. reflexivity. Qed.

(** C9, which the code does not keep: [GetTrustedURL] drops the error of
    the parser, so for a view of a request whose URL the parser refuses
    to read back (here a host with a blank in it) [GetTrustedRequest]
    returns no copy of the request: the write to the nil URL stops the
    call with a panic. *)
Theorem trusted_request_panics_on_unreadable_url :
  trusted_view dotted.IP_String reparse_no_blank blank_host_view
  /\ reparse_no_blank (http.URL (Request blank_host_view)) = None
  /\ GetTrustedRequest dotted.IP_String reparse_no_blank blank_host_view = Panics.
Proof.
  split; [apply view_resolved|]. split; vm_compute; reflexivity.
Qed.

(** C10, which the code does not keep: for the same view
    [BuildRequestForForward] returns no request either, with the flag set
    or not: it asks for the trusted URL before it touches a header, and
    that call panics. *)
Theorem forward_request_panics_on_unreadable_url (stripForwardedIPs : bool) :
  trusted_view dotted.IP_String reparse_no_blank blank_host_view
  /\ reparse_no_blank (http.URL (Request blank_host_view)) = None
  /\ BuildRequestForForward dotted.IP_String reparse_no_blank stripForwardedIPs
       blank_host_view = Panics.
Proof.
  split; [apply view_resolved|].
  split; [vm_compute; reflexivity|].
  destruct stripForwardedIPs; vm_compute; reflexivity.
Qed.

(** ** The trusted view: what stays in the caches *)

(** Called twice with nothing in between, [GetTrustedHost] and
    [GetTrustedProto] answer the same. *)
Lemma GetTrustedHost_twice (f : forwardedRequest) :
  (GetTrustedHost (GetTrustedHost f).2).1 = (GetTrustedHost f).1.
Proof.
  destruct (GetTrustedHost_cases f) as [[Hne E] | [He E]].
  - rewrite E. cbn [fst snd]. rewrite E. reflexivity.
  - rewrite E. cbn [fst snd].
    destruct (GetTrustedHost_cases (set_trustedHost f (host_of f))) as [[_ ->] | [_ ->]];
      reflexivity.
Qed.

Lemma GetTrustedProto_twice (f : forwardedRequest) :
  (GetTrustedProto (GetTrustedProto f).2).1 = (GetTrustedProto f).1.
Proof.
  destruct (GetTrustedProto_cases f) as [[Hne E] | [He E]].
  - rewrite E. cbn [fst snd]. rewrite E. reflexivity.
  - rewrite E. cbn [fst snd].
    destruct (GetTrustedProto_cases (set_trustedProto f (proto_of f))) as [[_ ->] | [_ ->]];
      reflexivity.
Qed.

(** The protocol, once computed, is not touched by a write to the raw
    request. *)
Lemma GetTrustedProto_keeps (f : forwardedRequest) (g : http.Request -> http.Request) :
  (GetTrustedProto (write_raw g (GetTrustedProto f).2)).1 = (GetTrustedProto f).1.
Proof.
  pose proof (GetTrustedProto_not_empty f) as Hne.
  pose proof (GetTrustedProto_cached f) as Hc.
  destruct (GetTrustedProto f) as [p f1]. cbn [fst snd] in *.
  destruct (GetTrustedProto_cases (write_raw g f1)) as [[_ ->] | [He _]].
  - cbn. exact Hc.
  - cbn in He. congruence.
Qed.

(** So is the host, when it is not the empty text. *)
Lemma GetTrustedHost_keeps (f : forwardedRequest) (g : http.Request -> http.Request) :
  (GetTrustedHost f).1 <> EmptyString ->
  (GetTrustedHost (write_raw g (GetTrustedHost f).2)).1 = (GetTrustedHost f).1.
Proof.
  intros Hne.
  pose proof (GetTrustedHost_cached f) as Hc.
  destruct (GetTrustedHost f) as [h f1]. cbn [fst snd] in *.
  destruct (GetTrustedHost_cases (write_raw g f1)) as [[_ ->] | [He _]].
  - cbn. exact Hc.
  - cbn in He. congruence.
Qed.

(** The URL and the trusted request are kept as soon as they exist. *)
Lemma GetTrustedURL_keeps (url_reparse : url.URL -> option url.URL)
    (f f1 : forwardedRequest) (u : url.URL) (g : http.Request -> http.Request) :
  GetTrustedURL url_reparse f = Returns (u, f1) ->
  fst <$> GetTrustedURL url_reparse (write_raw g f1) = Returns u.
Proof.
  unfold GetTrustedURL at 1.
  destruct (trustedURL f) as [u1|] eqn:E.
  - intros [= <- <-]. unfold GetTrustedURL. cbn. rewrite E. reflexivity.
  - destruct (GetTrustedHost f) as [h f2].
    destruct (url_reparse (http.URL (Request f))) as [u0|]; [|discriminate].
    destruct (GetTrustedProto f2) as [p f3].
    intros [= <- <-]. reflexivity.
Qed.

Lemma GetTrustedRequest_keeps (IP_String : IP -> string)
    (url_reparse : url.URL -> option url.URL)
    (f f1 : forwardedRequest) (r : http.Request) (g : http.Request -> http.Request) :
  GetTrustedRequest IP_String url_reparse f = Returns (r, f1) ->
  fst <$> GetTrustedRequest IP_String url_reparse (write_raw g f1) = Returns r.
Proof.
  unfold GetTrustedRequest at 1.
  destruct (trustedRequest f) as [r1|] eqn:E.
  - intros [= <- <-]. unfold GetTrustedRequest. cbn. rewrite E. reflexivity.
  - destruct (GetTrustedHost f) as [h f2].
    unfold mbind, exec_bind, Go.bind.
    destruct (GetTrustedURL url_reparse f2) as [[u f3]|]; [|discriminate].
    intros [= <- <-]. reflexivity.
Qed.

(** C5, which the code does not keep: the cache of the host counts as
    empty while it holds the empty text, so a host that was computed to be
    empty is computed again; after a write to the raw request the second
    call answers with the new host. *)
Theorem empty_host_is_computed_again :
  (GetTrustedHost hostless_view).1 = EmptyString
  /\ (GetTrustedHost
        (write_raw (fun r => http.set_Host r "evil.example") (GetTrustedHost hostless_view).2)).1
     = "evil.example"%string.
Proof. split; vm_compute; reflexivity. Qed.

(** ** The extractor of the chain *)

Section ExtractorProperties.

Variable ParseIP : string -> IP.

Lemma extract_tokens (tokens : list string) (res : list IP) :
  fold_left
    (fun res val => if is_nil (ParseIP val) then res else res ++ [ParseIP val])
    tokens res
  = res ++ flat_map (parsed ParseIP) tokens.
Proof.
  revert res. induction tokens as [|tok tokens IH]; intros res; cbn [fold_left flat_map].
  - rewrite app_nil_r. reflexivity.
  - rewrite IH. unfold parsed at 2.
    destruct (ParseIP tok); cbn [is_nil app].
    + rewrite <- app_assoc. reflexivity.
    + reflexivity.
Qed.

Lemma extract_headers (headers : list string) (res : list IP) :
  fold_left
    (fun res header =>
       fold_left
         (fun res val => if is_nil (ParseIP val) then res else res ++ [ParseIP val])
         (strings.Split header ",") res)
    headers res
  = res ++ flat_map (fun header => flat_map (parsed ParseIP) (strings.Split header ",")) headers.
Proof.
  revert res. induction headers as [|header headers IH]; intros res; cbn [fold_left flat_map].
  - rewrite app_nil_r. reflexivity.
  - rewrite IH, extract_tokens, <- app_assoc. reflexivity.
Qed.

(** The two loops of [ExtractForwardedForIPs] keep the order of the header
    occurrences and of the tokens in each, and drop what does not parse. *)
Lemma ExtractForwardedForIPs_flat (h : http.Header) :
  ExtractForwardedForIPs ParseIP h
  = flat_map (fun header => flat_map (parsed ParseIP) (strings.Split header ","))
      (http.Header_Values h "X-Forwarded-For").
Proof.
  unfold ExtractForwardedForIPs. cbv zeta.
  rewrite extract_headers. reflexivity.
Qed.

(** On headers whose tokens carry no blanks at their ends the code gives
    the chain of the specification. *)
Lemma ExtractForwardedForIPs_trimmed (h : http.Header) :
  Forall (fun header => Forall (fun tok => Spec.trim tok = tok) (strings.Split header ","))
         (http.Header_Values h "X-Forwarded-For") ->
  ExtractForwardedForIPs ParseIP h
  = Spec.chain_of_headers ParseIP (http.Header_Values h "X-Forwarded-For").
Proof.
  rewrite ExtractForwardedForIPs_flat. unfold Spec.chain_of_headers.
  induction 1 as [|header headers Hh _ IH]; cbn [flat_map]; [reflexivity|].
  rewrite IH. f_equal.
  induction Hh as [|tok toks Ht _ IHt]; cbn [flat_map]; [reflexivity|].
  rewrite IHt. unfold parsed at 1. rewrite Ht. reflexivity.
Qed.

End ExtractorProperties.

(** C3, which the code does not keep: the token after a comma and a blank
    is parsed with its blank, does not parse, and is dropped, although its
    trimmed form is an address; the chain of the specification has it. *)
Theorem extract_drops_token_after_blank :
  ExtractForwardedForIPs dotted.ParseIP (xff ["1.2.3.4, 5.6.7.8"])
  = [dotted.ParseIP "1.2.3.4"]
  /\ Spec.chain_of_headers dotted.ParseIP
       (http.Header_Values (xff ["1.2.3.4, 5.6.7.8"]) "X-Forwarded-For")
     = [dotted.ParseIP "1.2.3.4"; dotted.ParseIP "5.6.7.8"]
  /\ dotted.ParseIP (Spec.trim " 5.6.7.8") = Some (dotted.v4InV6Prefix ++ [5; 6; 7; 8]%Z).
Proof. repeat split; vm_compute; reflexivity. Qed.

(** The header that [BuildRequestForForward] writes for the next hop is
    read back by the extractor without all but its first address. *)
Example extract_of_built_header :
  (fun r => ExtractForwardedForIPs dotted.ParseIP (http.Header_of r.1))
    <$> BuildRequestForForward dotted.IP_String Some false two_hop_view
  = Returns [dotted.ParseIP "7.7.7.7"].
Proof. vm_compute. reflexivity. Qed.

(** ** The middleware entry points *)

(** http.go reports a peer address that cannot be resolved and stops:
    the resolver is not called and no handler runs. *)
Lemma SetTrustedProxyContext_rejects (ParseIP : string -> IP)
    (ResolveTCPAddr : string -> string -> TCPAddr + string)
    (h : HTTPHandler) (r : http.Request) (next : Handler) (err : string) :
  ResolveTCPAddr "tcp"%string (http.RemoteAddr r) = inr err ->
  HTTPHandler_SetTrustedProxyContext ParseIP ResolveTCPAddr h r next
  = [EvError err http.StatusInternalServerError].
Proof.
  intros H. unfold HTTPHandler_SetTrustedProxyContext, http.Clone, new_view.
  cbn [Request]. rewrite H. reflexivity.
Qed.

(** So does the entry point that is built on it. *)
Lemma WithTrustedProxyContext_rejects (ParseIP : string -> IP)
    (ResolveTCPAddr : string -> string -> TCPAddr + string)
    (resolver : IPExtractor) (next : Handler) (r : http.Request)
    (view : option forwardedRequest) (err : string) :
  ResolveTCPAddr "tcp"%string (http.RemoteAddr r) = inr err ->
  part_001.WithTrustedProxyContext ParseIP ResolveTCPAddr resolver next r view
  = [EvError err http.StatusInternalServerError].
Proof.
  intros H. unfold part_001.WithTrustedProxyContext.
  apply SetTrustedProxyContext_rejects. exact H.
Qed.

(** A request that comes without [X-Forwarded-For] to a handler with the
    offset 0 has a combined chain of one entry: the panic of the resolver
    ends its handling. *)
Lemma SetTrustedProxyContext_offset_zero (ParseIP : string -> IP)
    (ResolveTCPAddr : string -> string -> TCPAddr + string)
    (h : HTTPHandler) (r : http.Request) (next : Handler) (raddr : TCPAddr) :
  Extractor h = UseOffset 0%Z ->
  http.Header_Values (http.Header_of r) "X-Forwarded-For" = [] ->
  ResolveTCPAddr "tcp"%string (http.RemoteAddr r) = inl raddr ->
  HTTPHandler_SetTrustedProxyContext ParseIP ResolveTCPAddr h r next
  = [EvResolve (TCPAddr_IP raddr) []; EvPanic].
Proof.
  intros He Hh Hr.
  unfold HTTPHandler_SetTrustedProxyContext, http.Clone, new_view. cbn [Request].
  rewrite Hr, He. unfold ExtractForwardedForIPs. rewrite Hh. cbn [fold_left].
  cbn [Resolve]. rewrite offset_resolve_boundary; [reflexivity | lia | |];
    unfold len, MaxInt; cbn [app length]; lia.
Qed.

(** trustedproxy.go calls the resolver with whatever [net.ParseIP] makes
    of the peer address. *)
Lemma WithTrustedProxyContext_resolves (ParseIP : string -> IP)
    (resolver : IPExtractor) (next : Handler) (r : http.Request)
    (view : option forwardedRequest) :
  exists rest,
    trustedproxy_go.WithTrustedProxyContext ParseIP resolver next r view
    = EvResolve (ParseIP (http.RemoteAddr r))
        (ExtractForwardedForIPs ParseIP (http.Header_of r)) :: rest.
Proof. unfold trustedproxy_go.WithTrustedProxyContext. eauto. Qed.

(** C4, which the code does not keep in trustedproxy.go: the peer address
    "bogus" is no address, [net.ParseIP] gives nil for it, and the entry
    point hands that nil to the resolver and runs the next handler with a
    view whose trusted remote address is nil; no error is reported. *)
Theorem plain_parse_passes_nil_remote :
  dotted.ParseIP (http.RemoteAddr bogus_request) = nil_IP
  /\ trustedproxy_go.WithTrustedProxyContext dotted.ParseIP
       (UseCIDRWhitelist {| whitelist := [ten_slash_8] |}) observe bogus_request None
     = [EvResolve nil_IP [];
        EvServe bogus_request
          (Some (set_resolution (new_view bogus_request) nil_IP nil_IP []))].
Proof. split; vm_compute; reflexivity. Qed.

(** The same entry point on the address of a real connection, which has
    a port: it is no text of an IP address either. *)
Example plain_parse_of_host_and_port :
  dotted.ParseIP "10.0.0.1:4711" = nil_IP.
Proof. vm_compute. reflexivity. Qed.

(** * Further properties of the code *)

(** ** extractor.go *)

(** X1: [pop] of the empty slice is nil and the empty slice; of any other
    slice it is the last element and the elements before it, so that
    putting the element back gives the slice. *)
Theorem pop_splits (s : list IP) :
  (s = [] /\ pop s = (nil_IP, []))
  \/ ((pop s).2 ++ [(pop s).1] = s /\ S (length (pop s).2) = length s).
Proof.
  destruct s as [|x s _] using rev_ind.
  - left. split; reflexivity.
  - right. rewrite pop_snoc. cbn [fst snd]. split; [reflexivity|].
    rewrite length_app. cbn [length]. lia.
Qed.

(** The successful run of the offset resolver, with its positions. *)
Lemma offset_resolve_at (o : OffsetIPExtractor) (remote : IP) (forwarded : list IP) :
  (0 <= o)%Z ->
  (len (forwarded ++ [remote]) <= MaxInt)%Z ->
  (o + 2 <= len (forwarded ++ [remote]))%Z ->
  exists proxy trusted,
    (forwarded ++ [remote]) !! S (Z.to_nat (len (forwarded ++ [remote]) - o - 2)) = Some proxy
    /\ (forwarded ++ [remote]) !! Z.to_nat (len (forwarded ++ [remote]) - o - 2) = Some trusted
    /\ OffsetIPExtractor_Resolve o remote forwarded =
       Returns (proxy, trusted,
                take (Z.to_nat (len (forwarded ++ [remote]) - o - 2)) (forwarded ++ [remote]),
                None).
Proof.
  intros Ho Hm Hs. unfold OffsetIPExtractor_Resolve. cbn [app].
  set (ips := forwarded ++ [remote]) in *.
  unfold MaxInt in *.
  rewrite int_of_uint_small by (unfold MaxInt; lia).
  destruct (Z.leb_spec (len ips) o); [lia|].
  unfold int_sub.
  rewrite (int_wrap_small (len ips - o)) by lia.
  rewrite (int_wrap_small (len ips - o - 1)) by lia.
  rewrite (int_wrap_small (len ips - o - 2)) by lia.
  destruct (lookup_lt_is_Some_2 ips (S (Z.to_nat (len ips - o - 2)))) as [proxy Hp].
  { unfold len in *. lia. }
  destruct (lookup_lt_is_Some_2 ips (Z.to_nat (len ips - o - 2))) as [trusted Ht].
  { unfold len in *. lia. }
  exists proxy, trusted. split; [exact Hp|]. split; [exact Ht|].
  unfold mbind, exec_bind, Go.bind.
  assert (index ips (len ips - o - 1) = Returns proxy) as ->.
  { apply index_in_range. split; [lia|].
    replace (Z.to_nat (len ips - o - 1)) with (S (Z.to_nat (len ips - o - 2))) by lia.
    exact Hp. }
  assert (index ips (len ips - o - 2) = Returns trusted) as ->
    by (apply index_in_range; split; [lia | exact Ht]).
  assert (slice_to ips (len ips - o - 2)
          = Returns (take (Z.to_nat (len ips - o - 2)) ips)) as ->
    by (apply slice_to_in_range; split; [lia | reflexivity]).
  reflexivity.
Qed.

(** X2: the three outcomes of the offset resolver, by the length of the
    combined chain: the configuration error (with nil results) exactly
    when the chain is no longer than the offset, a panic exactly when it
    is one longer or when the offset does not fit an [int], and a result
    without error exactly when it is at least two longer. *)
Theorem offset_resolve_outcomes (o : OffsetIPExtractor) (remote : IP) (forwarded : list IP) :
  uint_ok o ->
  (len (forwarded ++ [remote]) <= MaxInt)%Z ->
  (Resolve (UseOffset o) remote forwarded
     = Returns (nil_IP, nil_IP, [], Some "mis-configured proxy chain"%string)
   <-> (len (forwarded ++ [remote]) <= o /\ o <= MaxInt)%Z)
  /\ (Resolve (UseOffset o) remote forwarded = Panics
      <-> (len (forwarded ++ [remote]) = o + 1 \/ MaxInt < o)%Z)
  /\ ((exists proxy trusted rest,
          Resolve (UseOffset o) remote forwarded = Returns (proxy, trusted, rest, None))
      <-> (o + 2 <= len (forwarded ++ [remote]) /\ o <= MaxInt)%Z).
Proof.
  intros Ho Hm. cbn [Resolve]. pose proof Ho as [Ho0 Ho1].
  destruct (Z_lt_le_dec MaxInt o) as [Hbig | Hfit].
  { rewrite offset_resolve_huge by assumption.
    split; [|split]; split; try discriminate; try lia; auto.
    intros (p & t & r & H). discriminate. }
  destruct (Z_le_gt_dec (len (forwarded ++ [remote])) o) as [Hshort | Hlong].
  { rewrite offset_resolve_too_short by (auto; lia).
    split; [|split]; split; try discriminate; try lia; auto.
    intros (p & t & r & H). discriminate. }
  destruct (Z.eq_dec (len (forwarded ++ [remote])) (o + 1)%Z) as [Hone | Hmore].
  { rewrite offset_resolve_boundary by (auto; lia).
    split; [|split]; split; try discriminate; try lia; auto.
    intros (p & t & r & H). discriminate. }
  destruct (offset_resolve_at o remote forwarded) as (p & t & _ & _ & ->); [lia.. |].
  split; [|split]; split; try discriminate; try lia; eauto.
Qed.

Lemma offset_resolve_outcomes_witness :
  Resolve (UseOffset 1%Z) (ip4 9 9 9 9) [] =
  Returns (nil_IP, nil_IP, [], Some "mis-configured proxy chain"%string).
Proof.
  apply (offset_resolve_outcomes 1%Z (ip4 9 9 9 9) []).
  - unfold uint_ok. lia.
  - vm_compute. discriminate.
  - vm_compute. split; discriminate.
Defined.

(** X3: a result of the offset resolver lays the combined chain out as
    the rest, the trusted remote, the proxy and, behind the proxy, as many
    entries as the offset says, which are in no result. *)
Theorem offset_resolve_layout (o : OffsetIPExtractor) (remote : IP) (forwarded : list IP)
    (proxy trusted : IP) (rest : list IP) :
  uint_ok o ->
  (len (forwarded ++ [remote]) <= MaxInt)%Z ->
  Resolve (UseOffset o) remote forwarded = Returns (proxy, trusted, rest, None) ->
  exists skipped,
    forwarded ++ [remote] = rest ++ trusted :: proxy :: skipped
    /\ len skipped = o.
Proof.
  intros Ho Hm. cbn [Resolve]. pose proof Ho as [Ho0 Ho1].
  destruct (Z_lt_le_dec MaxInt o) as [Hbig | Hfit].
  { rewrite offset_resolve_huge by assumption. discriminate. }
  destruct (Z_le_gt_dec (len (forwarded ++ [remote])) o) as [Hshort | Hlong].
  { rewrite offset_resolve_too_short by (auto; lia). discriminate. }
  destruct (Z.eq_dec (len (forwarded ++ [remote])) (o + 1)%Z) as [Hone | Hmore].
  { rewrite offset_resolve_boundary by (auto; lia). discriminate. }
  destruct (offset_resolve_at o remote forwarded) as (p & t & Hp & Ht & ->); [lia.. |].
  intros [= <- <- <-].
  set (ips := forwarded ++ [remote]) in *.
  set (k := Z.to_nat (len ips - o - 2)) in *.
  exists (drop (S (S k)) ips). split.
  - rewrite <- (drop_S ips p (S k) Hp). symmetry. apply take_drop_middle. exact Ht.
  - unfold len in *. rewrite length_drop. lia.
Qed.

Lemma offset_resolve_layout_witness :
  exists skipped,
    [ip4 1 1 1 1; ip4 2 2 2 2; ip4 3 3 3 3] ++ [ip4 9 9 9 9]
    = [ip4 1 1 1 1] ++ ip4 2 2 2 2 :: ip4 3 3 3 3 :: skipped
    /\ len skipped = 1%Z.
Proof.
  apply (offset_resolve_layout 1%Z (ip4 9 9 9 9) [ip4 1 1 1 1; ip4 2 2 2 2; ip4 3 3 3 3]).
  - unfold uint_ok. lia.
  - vm_compute. discriminate.
  - vm_compute. reflexivity.
Defined.

(** The result of the whitelist resolver is the result of any walk. *)
Lemma cidr_resolve_of_walk (W : CIDRWhitelist) (remote : IP) (C : list IP)
    (res : IP * IP * list IP) :
  Spec.walk W nil_IP remote C res ->
  CIDRWhitelist_Resolve W remote C = Returns (res.1.1, res.1.2, res.2, None).
Proof.
  intros Hw. rewrite CIDRWhitelist_Resolve_returns.
  rewrite (walk_functional _ _ _ _ _ _ (Resolve_loop_walk W nil_IP remote C) Hw).
  reflexivity.
Qed.

Lemma cidr_resolve_walks (W : CIDRWhitelist) (remote : IP) (C : list IP)
    (proxy trusted : IP) (rest : list IP) (e : error) :
  CIDRWhitelist_Resolve W remote C = Returns (proxy, trusted, rest, e) ->
  Spec.walk W nil_IP remote C (proxy, trusted, rest).
Proof.
  rewrite CIDRWhitelist_Resolve_returns. intros [= <- <- <- _].
  pose proof (Resolve_loop_walk W nil_IP remote C) as Hw.
  destruct (Resolve_loop W nil_IP remote C) as [[p t] r]. exact Hw.
Qed.

(** X4: with no forwarded address the whitelist resolver names no proxy,
    also for a peer that is in the whitelist: the peer is the trusted
    remote. *)
Theorem cidr_resolve_direct_peer (W : CIDRWhitelist) (remote : IP) :
  Resolve (UseCIDRWhitelist W) remote [] = Returns (nil_IP, remote, [], None).
Proof.
  cbn [Resolve].
  apply (cidr_resolve_of_walk W remote [] (nil_IP, remote, [])).
  apply Spec.walk_exhausted.
Qed.

(** A chain of trusted hops behind a trusted candidate is walked to its
    leftmost entry. *)
Lemma walk_all_trusted (W : CIDRWhitelist) (x : IP) (ys : list IP) :
  forall (p cand : IP),
    Forall (Spec.in_some_prefix W) (ys ++ [cand]) ->
    exists second more,
      ys ++ [cand] = second :: more
      /\ Spec.walk W p cand (x :: ys) (second, x, []).
Proof.
  induction ys as [|y ys IH] using rev_ind; intros p cand Hall.
  - exists cand, []. split; [reflexivity|].
    apply (Spec.walk_promote W p cand [] x).
    + rewrite Forall_app, Forall_singleton in Hall. apply Hall.
    + apply Spec.walk_exhausted.
  - rewrite Forall_app, Forall_singleton in Hall. destruct Hall as [Hys Hc].
    destruct (IH cand y Hys) as (second & more & Heq & Hw).
    exists second, (more ++ [cand]). split.
    + rewrite Heq. reflexivity.
    + change (x :: ys ++ [y]) with ((x :: ys) ++ [y]).
      apply Spec.walk_promote; assumption.
Qed.

(** X5: when the peer and every forwarded address but the leftmost are in
    the whitelist, the leftmost forwarded address is the trusted remote,
    the address right of it is the proxy and the rest is empty, whether
    the leftmost address is in the whitelist or not. *)
Theorem cidr_resolve_all_trusted (W : CIDRWhitelist) (remote x : IP) (xs : list IP) :
  Forall (Spec.in_some_prefix W) (xs ++ [remote]) ->
  exists proxy more,
    xs ++ [remote] = proxy :: more
    /\ Resolve (UseCIDRWhitelist W) remote (x :: xs) = Returns (proxy, x, [], None).
Proof.
  intros Hall.
  destruct (walk_all_trusted W x xs nil_IP remote Hall) as (second & more & Heq & Hw).
  exists second, more. split; [exact Heq|].
  cbn [Resolve]. apply (cidr_resolve_of_walk W remote (x :: xs) (second, x, [])). exact Hw.
Qed.

Lemma ten_slash_8_contains (b c d : Z) :
  Spec.in_some_prefix {| whitelist := [ten_slash_8] |} (ip4 10 b c d).
Proof.
  exists ten_slash_8. split; [left|].
  unfold IPNet_Contains, ten_slash_8, ip4. cbn.
  rewrite !Z.land_0_r. reflexivity.
Qed.

Lemma cidr_resolve_all_trusted_witness :
  exists proxy more,
    [ip4 10 0 0 3; ip4 10 0 0 2] ++ [ip4 10 0 0 1] = proxy :: more
    /\ Resolve (UseCIDRWhitelist {| whitelist := [ten_slash_8] |})
         (ip4 10 0 0 1) (ip4 10 0 0 4 :: [ip4 10 0 0 3; ip4 10 0 0 2])
       = Returns (proxy, ip4 10 0 0 4, [], None).
Proof.
  apply (cidr_resolve_all_trusted {| whitelist := [ten_slash_8] |}).
  repeat constructor; apply ten_slash_8_contains.
Defined.

(** Every hop that the walk takes as a proxy is in the whitelist. *)
Lemma walk_consumed_trusted (W : CIDRWhitelist) (p0 cand : IP) (C : list IP)
    (res : IP * IP * list IP) :
  Spec.walk W p0 cand C res ->
  exists consumed,
    C ++ [cand] = res.2 ++ res.1.2 :: consumed
    /\ Forall (Spec.in_some_prefix W) consumed
    /\ ((consumed = [] /\ res.1.1 = p0 /\ res.2 = C)
        \/ exists more, consumed = res.1.1 :: more).
Proof.
  induction 1 as [p c ch Hc | p c | p c ch x res Hc Hw IH]; cbn [fst snd].
  - exists []. split; [reflexivity|]. split; [constructor | left; auto].
  - exists []. split; [reflexivity|]. split; [constructor | left; auto].
  - destruct IH as (consumed & Heq & Hall & Hcons).
    exists (consumed ++ [c]). split; [|split].
    + rewrite Heq. rewrite <- app_assoc. reflexivity.
    + rewrite Forall_app, Forall_singleton. split; [exact Hall | exact Hc].
    + right. destruct Hcons as [(-> & -> & _) | [more ->]]; eauto.
Qed.

(** The walk stops with a chain left only at a candidate that is not in
    the whitelist. *)
Lemma walk_stops_untrusted (W : CIDRWhitelist) (p0 cand : IP) (C : list IP)
    (res : IP * IP * list IP) :
  Spec.walk W p0 cand C res ->
  res.2 = [] \/ ~ Spec.in_some_prefix W res.1.2.
Proof.
  induction 1 as [p c ch Hc | p c | p c ch x res Hc Hw IH]; cbn [fst snd]; auto.
Qed.

(** X6: the whitelist resolver trusts only what the whitelist holds: the
    hops between the trusted remote and the peer, the peer included, are
    all in the whitelist; a proxy is named only when there is a forwarded
    chain and the peer is in the whitelist, and it is itself in the
    whitelist; without a proxy the peer is the trusted remote and the
    chain is the rest. *)
Theorem cidr_resolve_trusts_whitelist (W : CIDRWhitelist) (remote : IP)
    (forwarded : list IP) (proxy trusted : IP) (rest : list IP) :
  Resolve (UseCIDRWhitelist W) remote forwarded = Returns (proxy, trusted, rest, None) ->
  exists consumed,
    forwarded ++ [remote] = rest ++ trusted :: consumed
    /\ Forall (Spec.in_some_prefix W) consumed
    /\ (proxy <> nil_IP ->
        Spec.in_some_prefix W proxy /\ Spec.in_some_prefix W remote /\ forwarded <> [])
    /\ (consumed = [] -> proxy = nil_IP /\ trusted = remote /\ rest = forwarded).
Proof.
  cbn [Resolve]. intros HR. apply cidr_resolve_walks in HR.
  destruct (walk_consumed_trusted _ _ _ _ _ HR) as (consumed & Heq & Hall & Hcons).
  cbn [fst snd] in *.
  exists consumed. split; [exact Heq|]. split; [exact Hall|]. split.
  - intros Hne. destruct Hcons as [(_ & Hp & _) | [more ->]]; [congruence|].
    split; [|split].
    + rewrite Forall_cons in Hall. apply Hall.
    + assert (remote ∈ proxy :: more) as Hin.
      { change (rest ++ trusted :: proxy :: more)
          with (rest ++ [trusted] ++ (proxy :: more)) in Heq.
        rewrite !app_assoc in Heq.
        destruct more as [|m more'] using rev_ind.
        - apply app_inj_tail in Heq as [_ ->]. left.
        - rewrite app_comm_cons, app_assoc in Heq.
          apply app_inj_tail in Heq as [_ ->].
          set_solver. }
      rewrite Forall_forall in Hall. apply Hall. exact Hin.
    + intros ->. cbn [app] in Heq.
      destruct rest; cbn in Heq; [discriminate|].
      injection Heq as _ Heq. destruct rest; discriminate.
  - intros ->. destruct Hcons as [(_ & Hp & Hr) | [more Hm]]; [|discriminate].
    split; [exact Hp|]. split; [|exact Hr].
    rewrite Hr in Heq. apply app_inj_tail in Heq as [_ ->]. reflexivity.
Qed.

Lemma cidr_resolve_trusts_whitelist_witness :
  exists consumed,
    [ip4 1 2 3 4; ip4 10 0 0 2] ++ [ip4 10 0 0 1] = [] ++ ip4 1 2 3 4 :: consumed
    /\ Forall (Spec.in_some_prefix {| whitelist := [ten_slash_8] |}) consumed.
Proof.
  destruct (cidr_resolve_trusts_whitelist {| whitelist := [ten_slash_8] |}
              (ip4 10 0 0 1) [ip4 1 2 3 4; ip4 10 0 0 2] (ip4 10 0 0 2) (ip4 1 2 3 4) [])
    as (consumed & Heq & Hall & _).
  - vm_compute. reflexivity.
  - exists consumed. split; assumption.
Defined.

(** X7: the whitelist resolver leaves a rest only behind a trusted remote
    that is in no prefix of the whitelist: it never stops at a
    whitelisted address while forwarded addresses are left. *)
Theorem cidr_resolve_stops_at_untrusted (W : CIDRWhitelist) (remote : IP)
    (forwarded : list IP) (proxy trusted : IP) (rest : list IP) :
  Resolve (UseCIDRWhitelist W) remote forwarded = Returns (proxy, trusted, rest, None) ->
  rest <> [] ->
  ~ Spec.in_some_prefix W trusted.
Proof.
  cbn [Resolve]. intros HR Hrest. apply cidr_resolve_walks in HR.
  destruct (walk_stops_untrusted _ _ _ _ _ HR) as [Hnil | Hun]; cbn [fst snd] in *.
  - contradiction.
  - exact Hun.
Qed.

Lemma cidr_resolve_stops_at_untrusted_witness :
  ~ Spec.in_some_prefix {| whitelist := [ten_slash_8] |} (ip4 1 2 3 4).
Proof.
  apply (cidr_resolve_stops_at_untrusted {| whitelist := [ten_slash_8] |}
           (ip4 10 0 0 1) [ip4 7 7 7 7; ip4 1 2 3 4; ip4 10 0 0 2]
           (ip4 10 0 0 2) (ip4 1 2 3 4) [ip4 7 7 7 7]).
  - vm_compute. reflexivity.
  - discriminate.
Defined.

(** ** trustedproxy.go: the extractor *)

Lemma parsed_never_nil (ParseIP : string -> IP) (val : string) :
  Forall (fun ip => ip <> nil_IP) (parsed ParseIP val).
Proof.
  unfold parsed. destruct (ParseIP val); repeat constructor. discriminate.
Qed.

(** X8: no address of the chain that [ExtractForwardedForIPs] returns is
    nil, whatever the header holds and whatever [net.ParseIP] makes of
    its tokens. *)
Theorem extract_never_nil (ParseIP : string -> IP) (h : http.Header) :
  Forall (fun ip => ip <> nil_IP) (ExtractForwardedForIPs ParseIP h).
Proof.
  rewrite ExtractForwardedForIPs_flat.
  induction (http.Header_Values h "X-Forwarded-For") as [|header headers IH];
    cbn [flat_map]; [constructor|].
  rewrite Forall_app. split; [|exact IH].
  induction (strings.Split header ",") as [|tok toks IHt]; cbn [flat_map]; [constructor|].
  rewrite Forall_app. split; [apply parsed_never_nil | exact IHt].
Qed.

(** X9: the occurrences of [X-Forwarded-For] are read one after the other
    and their chains put together in that order; a header without the
    field gives the empty chain. *)
Theorem extract_concatenates (ParseIP : string -> IP) (h : http.Header)
    (values1 values2 : list string) :
  ExtractForwardedForIPs ParseIP (<["X-Forwarded-For" := values1 ++ values2]> h)
  = ExtractForwardedForIPs ParseIP (<["X-Forwarded-For" := values1]> h)
    ++ ExtractForwardedForIPs ParseIP (<["X-Forwarded-For" := values2]> h)
  /\ ExtractForwardedForIPs ParseIP (delete "X-Forwarded-For" h) = [].
Proof.
  rewrite !ExtractForwardedForIPs_flat. unfold http.Header_Values.
  rewrite canonical_forwarded_for, !lookup_insert_eq, lookup_delete_eq. cbn [default].
  split; [apply flat_map_app | reflexivity].
Qed.

(** Splitting on a byte that a text does not hold gives the text. *)
Lemma Split_without_sep (s : string) (sep : ascii) :
  has_byte sep s = false -> strings.Split s sep = [s].
Proof.
  induction s as [|c s IH]; cbn [has_byte strings.Split]; [reflexivity|].
  intros H. apply orb_false_elim in H as [Hc Hs].
  rewrite Hc, (IH Hs). reflexivity.
Qed.

Lemma Split_cons_other (c sep : ascii) (s : string) :
  Ascii.eqb c sep = false ->
  exists tok toks,
    strings.Split s sep = tok :: toks
    /\ strings.Split (String c s) sep = String c tok :: toks.
Proof.
  intros Hc. cbn [strings.Split]. rewrite Hc.
  destruct s as [|d s]; cbn [strings.Split].
  - eauto.
  - destruct (Ascii.eqb d sep); [eauto|].
    destruct (strings.Split s sep); eauto.
Qed.

Lemma Split_append (a b : string) (sep : ascii) :
  has_byte sep a = false ->
  strings.Split (a +:+ String sep b) sep = a :: strings.Split b sep.
Proof.
  induction a as [|c a IH]; simpl.
  - intros _. rewrite Ascii.eqb_refl. reflexivity.
  - intros H. apply orb_false_elim in H as [Hc Ha].
    rewrite Hc, (IH Ha). reflexivity.
Qed.

(** What [strings.Split] on commas makes of texts that [strings.Join] put
    together with a comma and a blank: the first text, and the others with
    the blank before them. *)
Lemma Split_Join_comma_blank (x : string) (xs : list string) :
  Forall (fun s => has_byte "," s = false) (x :: xs) ->
  strings.Split (strings.Join (x :: xs) ", ") ","
  = x :: map (String " ") xs.
Proof.
  revert x. induction xs as [|y ys IH]; intros x Hall.
  - cbn [strings.Join map]. apply Split_without_sep.
    rewrite Forall_singleton in Hall. exact Hall.
  - rewrite Forall_cons in Hall. destruct Hall as [Hx Hys].
    change (strings.Join (x :: y :: ys) ", ")
      with (x +:+ String "," (String " " (strings.Join (y :: ys) ", "))).
    rewrite Split_append by exact Hx.
    destruct (Split_cons_other " " "," (strings.Join (y :: ys) ", ") eq_refl)
      as (tok & toks & H1 & H2).
    rewrite H2. rewrite (IH y Hys) in H1. injection H1 as <- <-. reflexivity.
Qed.

(** ** request.go: what the methods leave as it is *)

Lemma caches_kept_refl (f : forwardedRequest) : caches_kept f f.
Proof. repeat split; auto. Qed.

Lemma caches_kept_trans (f g h : forwardedRequest) :
  caches_kept f g -> caches_kept g h -> caches_kept f h.
Proof.
  intros (A1 & A2 & A3 & A4) (B1 & B2 & B3 & B4). repeat split.
  - intros H. rewrite <- (A1 H). apply B1. rewrite (A1 H). exact H.
  - intros H. rewrite <- (A2 H). apply B2. rewrite (A2 H). exact H.
  - intros u H. apply B3, A3, H.
  - intros r H. apply B4, A4, H.
Qed.

Lemma GetTrustedHost_frame (f : forwardedRequest) :
  same_inputs f (GetTrustedHost f).2 /\ caches_kept f (GetTrustedHost f).2.
Proof.
  destruct (GetTrustedHost_cases f) as [[_ ->] | [He ->]]; cbn [snd].
  - split; [apply same_inputs_refl | apply caches_kept_refl].
  - split; [repeat split|]. repeat split; cbn; auto. congruence.
Qed.

Lemma GetTrustedProto_frame (f : forwardedRequest) :
  same_inputs f (GetTrustedProto f).2 /\ caches_kept f (GetTrustedProto f).2.
Proof.
  destruct (GetTrustedProto_cases f) as [[_ ->] | [He ->]]; cbn [snd].
  - split; [apply same_inputs_refl | apply caches_kept_refl].
  - split; [repeat split|]. repeat split; cbn; auto. congruence.
Qed.

Lemma frame_trans (f g h : forwardedRequest) :
  same_inputs f g /\ caches_kept f g ->
  same_inputs g h /\ caches_kept g h ->
  same_inputs f h /\ caches_kept f h.
Proof.
  intros [A B] [C D].
  split; [eapply same_inputs_trans | eapply caches_kept_trans]; eassumption.
Qed.

(** [GetTrustedHost] and [GetTrustedProto] write to their own cache only. *)
Lemma GetTrustedHost_others (f : forwardedRequest) :
  trustedProto (GetTrustedHost f).2 = trustedProto f
  /\ trustedURL (GetTrustedHost f).2 = trustedURL f
  /\ trustedRequest (GetTrustedHost f).2 = trustedRequest f.
Proof.
  destruct (GetTrustedHost_cases f) as [[_ ->] | [_ ->]]; repeat split.
Qed.

Lemma GetTrustedProto_others (f : forwardedRequest) :
  trustedHost (GetTrustedProto f).2 = trustedHost f
  /\ trustedURL (GetTrustedProto f).2 = trustedURL f
  /\ trustedRequest (GetTrustedProto f).2 = trustedRequest f.
Proof.
  destruct (GetTrustedProto_cases f) as [[_ ->] | [_ ->]]; repeat split.
Qed.

Section Frames.

Variable IP_String : IP -> string.
Variable url_reparse : url.URL -> option url.URL.

Lemma GetTrustedURL_frame (f f' : forwardedRequest) (u : url.URL) :
  GetTrustedURL url_reparse f = Returns (u, f') ->
  (same_inputs f f' /\ caches_kept f f')
  /\ trustedURL f' = Some u /\ trustedRequest f' = trustedRequest f.
Proof.
  unfold GetTrustedURL.
  destruct (trustedURL f) as [u1|] eqn:E.
  - intros [= <- <-]. split; [|split; [exact E | reflexivity]].
    split; [apply same_inputs_refl | apply caches_kept_refl].
  - pose proof (GetTrustedHost_frame f) as F1.
    pose proof (GetTrustedHost_others f) as (_ & O1 & R1).
    destruct (GetTrustedHost f) as [h f1]. cbn [snd] in *.
    destruct (url_reparse (http.URL (Request f))) as [u0|]; [|discriminate].
    pose proof (GetTrustedProto_frame f1) as F2.
    pose proof (GetTrustedProto_others f1) as (_ & O2 & R2).
    destruct (GetTrustedProto f1) as [p f2]. cbn [snd] in *.
    intros [= <- <-]. split; [|split; [reflexivity | cbn; congruence]].
    apply (frame_trans f f2); [eapply frame_trans; eassumption|].
    split; [repeat split|]. repeat split; cbn; auto.
    intros u Hu. congruence.
Qed.

Lemma GetTrustedRequest_frame (f f' : forwardedRequest) (r : http.Request) :
  GetTrustedRequest IP_String url_reparse f = Returns (r, f') ->
  (same_inputs f f' /\ caches_kept f f') /\ trustedRequest f' = Some r.
Proof.
  unfold GetTrustedRequest.
  destruct (trustedRequest f) as [r1|] eqn:E.
  - intros [= <- <-]. split; [|exact E].
    split; [apply same_inputs_refl | apply caches_kept_refl].
  - pose proof (GetTrustedHost_frame f) as F1.
    pose proof (GetTrustedHost_others f) as (_ & _ & R1).
    destruct (GetTrustedHost f) as [h f1]. cbn [snd] in *.
    unfold mbind, exec_bind, Go.bind.
    destruct (GetTrustedURL url_reparse f1) as [[u f2]|] eqn:EU; [|discriminate].
    apply GetTrustedURL_frame in EU as (F2 & _ & R2).
    intros [= <- <-]. split; [|reflexivity].
    apply (frame_trans f f2); [eapply frame_trans; eassumption|].
    split; [repeat split|]. repeat split; cbn; auto.
    intros r Hr. congruence.
Qed.

(** [BuildRequestForForward] stores nothing of its own. *)
Lemma BuildRequestForForward_frame (strip : bool) (f f' : forwardedRequest)
    (r : http.Request) :
  BuildRequestForForward IP_String url_reparse strip f = Returns (r, f') ->
  (same_inputs f f' /\ caches_kept f f') /\ trustedRequest f' = trustedRequest f.
Proof.
  unfold BuildRequestForForward.
  pose proof (GetTrustedHost_frame f) as F1.
  pose proof (GetTrustedHost_others f) as (_ & _ & R1).
  destruct (GetTrustedHost f) as [h f1]. cbn [snd] in *.
  unfold mbind, exec_bind, Go.bind.
  destruct (GetTrustedURL url_reparse f1) as [[u f2]|] eqn:EU; [|discriminate].
  apply GetTrustedURL_frame in EU as (F2 & _ & R2).
  pose proof (GetTrustedHost_frame f2) as F3.
  pose proof (GetTrustedHost_others f2) as (_ & _ & R3).
  destruct (GetTrustedHost f2) as [h3 f3]. cbn [snd] in *.
  pose proof (GetTrustedProto_frame f3) as F4.
  pose proof (GetTrustedProto_others f3) as (_ & _ & R4).
  destruct (GetTrustedProto f3) as [p4 f4]. cbn [snd] in *.
  intros [= _ <-]. split; [|congruence].
  eapply frame_trans; [|exact F4]. eapply frame_trans; [|exact F3].
  eapply frame_trans; eassumption.
Qed.

Lemma after_frame (m : method) (f f' : forwardedRequest) :
  after IP_String url_reparse m f = Returns f' ->
  same_inputs f f' /\ caches_kept f f'.
Proof.
  destruct m; cbn [after].
  - intros [= <-]. apply GetTrustedHost_frame.
  - intros [= <-]. apply GetTrustedProto_frame.
  - unfold fmap, exec_fmap, Go.bind.
    destruct (GetTrustedURL url_reparse f) as [[u f1]|] eqn:E; [|discriminate].
    intros [= <-]. apply GetTrustedURL_frame in E. apply E.
  - unfold fmap, exec_fmap, Go.bind.
    destruct (GetTrustedRequest IP_String url_reparse f) as [[r f1]|] eqn:E; [|discriminate].
    intros [= <-]. apply GetTrustedRequest_frame in E. apply E.
  - unfold fmap, exec_fmap, Go.bind.
    destruct (BuildRequestForForward IP_String url_reparse stripForwardedIPs f)
      as [[r f1]|] eqn:E; [|discriminate].
    intros [= <-]. apply BuildRequestForForward_frame in E. apply E.
Qed.

Lemma evolves_keeps (f f' : forwardedRequest) :
  evolves IP_String url_reparse f f' -> caches_kept f f'.
Proof.
  induction 1 as [f | f f' g _ IH | f f' f'' m _ IH Hcall].
  - apply caches_kept_refl.
  - eapply caches_kept_trans; [exact IH|]. repeat split; auto.
  - eapply caches_kept_trans; [exact IH|]. apply (after_frame m). exact Hcall.
Qed.

(** X10: a call of a method of the view changes neither the raw request
    nor the result of the resolver: [GetOriginalRequest], [IsBehindProxy],
    [GetProxyIP], [GetTrustedRemoteAddr] and [GetTrustedForwardedFor]
    answer after it as before. *)
Theorem methods_keep_resolution (m : method) (f f' : forwardedRequest) :
  after IP_String url_reparse m f = Returns f' ->
  GetOriginalRequest f' = GetOriginalRequest f
  /\ IsBehindProxy f' = IsBehindProxy f
  /\ GetProxyIP f' = GetProxyIP f
  /\ GetTrustedRemoteAddr f' = GetTrustedRemoteAddr f
  /\ GetTrustedForwardedFor f' = GetTrustedForwardedFor f.
Proof.
  intros H. apply after_frame in H as [(A1 & A2 & A3 & A4) _].
  unfold GetOriginalRequest, IsBehindProxy, GetProxyIP, GetTrustedRemoteAddr,
    GetTrustedForwardedFor.
  rewrite A1, A2, A3, A4. repeat split.
Qed.

(** X11: the protocol that [GetTrustedProto] has returned once is what it
    returns from then on, whatever is written to the raw request and
    whichever methods are called in between. *)
Theorem trusted_proto_stays (f f2 : forwardedRequest) :
  evolves IP_String url_reparse (GetTrustedProto f).2 f2 ->
  (GetTrustedProto f2).1 = (GetTrustedProto f).1.
Proof.
  intros Hev. apply evolves_keeps in Hev as (_ & K & _).
  pose proof (GetTrustedProto_not_empty f) as Hne.
  pose proof (GetTrustedProto_cached f) as Hc.
  rewrite <- Hc in Hne. specialize (K Hne). rewrite Hc in K, Hne.
  destruct (GetTrustedProto_cases f2) as [[_ ->] | [He _]]; cbn [fst]; congruence.
Qed.

(** X12: a host that [GetTrustedHost] has returned once and that is not
    the empty text is what it returns from then on, whatever is written
    to the raw request and whichever methods are called in between. *)
Theorem trusted_host_stays (f f2 : forwardedRequest) :
  (GetTrustedHost f).1 <> EmptyString ->
  evolves IP_String url_reparse (GetTrustedHost f).2 f2 ->
  (GetTrustedHost f2).1 = (GetTrustedHost f).1.
Proof.
  intros Hne Hev. apply evolves_keeps in Hev as (K & _).
  pose proof (GetTrustedHost_cached f) as Hc.
  rewrite <- Hc in Hne. specialize (K Hne). rewrite Hc in K, Hne.
  destruct (GetTrustedHost_cases f2) as [[_ ->] | [He _]]; cbn [fst]; congruence.
Qed.

(** X13: the URL that [GetTrustedURL] has returned once is what it returns
    from then on, whatever is written to the raw request and whichever
    methods are called in between. *)
Theorem trusted_url_stays (f f1 f2 : forwardedRequest) (u : url.URL) :
  GetTrustedURL url_reparse f = Returns (u, f1) ->
  evolves IP_String url_reparse f1 f2 ->
  GetTrustedURL url_reparse f2 = Returns (u, f2).
Proof.
  intros HU Hev. apply GetTrustedURL_frame in HU as (_ & Hc & _).
  apply evolves_keeps in Hev as (_ & _ & K & _).
  unfold GetTrustedURL. rewrite (K u Hc). reflexivity.
Qed.

(** X14: the trusted request that [GetTrustedRequest] has returned once
    is what it returns from then on, whatever is written to the raw
    request and whichever methods are called in between. *)
Theorem trusted_request_stays (f f1 f2 : forwardedRequest) (r : http.Request) :
  GetTrustedRequest IP_String url_reparse f = Returns (r, f1) ->
  evolves IP_String url_reparse f1 f2 ->
  GetTrustedRequest IP_String url_reparse f2 = Returns (r, f2).
Proof.
  intros HR Hev. apply GetTrustedRequest_frame in HR as (_ & Hc).
  apply evolves_keeps in Hev as (_ & _ & _ & K).
  unfold GetTrustedRequest. rewrite (K r Hc). reflexivity.
Qed.

End Frames.

Lemma methods_keep_resolution_witness :
  IsBehindProxy (GetTrustedHost wss_view).2 = true
  /\ GetTrustedRemoteAddr (GetTrustedHost wss_view).2 = ip4 1 2 3 4.
Proof.
  destruct (methods_keep_resolution dotted.IP_String Some CallGetTrustedHost wss_view
              (GetTrustedHost wss_view).2 eq_refl) as (_ & Hb & _ & Hr & _).
  rewrite Hb, Hr. split; reflexivity.
Defined.

Lemma trusted_proto_stays_witness :
  (GetTrustedProto
     (write_raw (fun r => http.set_Header r ∅) (GetTrustedProto wss_view).2)).1
  = "https"%string.
Proof.
  rewrite (trusted_proto_stays dotted.IP_String Some wss_view).
  - vm_compute. reflexivity.
  - apply evolves_write, evolves_here.
Defined.

Lemma trusted_host_stays_witness :
  (GetTrustedHost
     (write_raw (fun r => http.set_Host r "evil.example") (GetTrustedHost wss_view).2)).1
  = "example.org"%string.
Proof.
  rewrite (trusted_host_stays dotted.IP_String Some wss_view).
  - vm_compute. reflexivity.
  - vm_compute. discriminate.
  - apply evolves_write, evolves_here.
Defined.

Lemma trusted_url_stays_witness :
  exists u f1,
    GetTrustedURL Some wss_view = Returns (u, f1)
    /\ fst <$> GetTrustedURL Some (write_raw (fun r => http.set_Host r "evil.example") f1)
       = Returns u
    /\ url.Host u = "example.org"%string.
Proof.
  destruct (GetTrustedURL Some wss_view) as [[u f1]|] eqn:E; [|vm_compute in E; discriminate].
  exists u, f1. split; [reflexivity|]. split.
  - rewrite (trusted_url_stays dotted.IP_String Some wss_view f1 _ u E).
    + reflexivity.
    + apply evolves_write, evolves_here.
  - vm_compute in E. injection E as <- _. reflexivity.
Defined.

Lemma trusted_request_stays_witness :
  exists r f1,
    GetTrustedRequest dotted.IP_String Some end_to_end_view = Returns (r, f1)
    /\ fst <$> GetTrustedRequest dotted.IP_String Some
                 (write_raw (fun r => http.set_Host r "evil.example") f1)
       = Returns r
    /\ http.Host r = "example.org"%string.
Proof.
  destruct (GetTrustedRequest dotted.IP_String Some end_to_end_view) as [[r f1]|] eqn:E;
    [|vm_compute in E; discriminate].
  exists r, f1. split; [reflexivity|]. split.
  - rewrite (trusted_request_stays dotted.IP_String Some end_to_end_view f1 _ r E).
    + reflexivity.
    + apply evolves_write, evolves_here.
  - vm_compute in E. injection E as <- _. reflexivity.
Defined.

(** ** request.go: the values of the view *)

Section Values.

Variable IP_String : IP -> string.
Variable url_reparse : url.URL -> option url.URL.

(** X15: [GetTrustedHost] gives the host of the raw request when the view
    is not behind a proxy; behind a proxy it gives the first value of
    [X-Forwarded-Host], or the host of the raw request when that header is
    missing or empty. *)
Theorem trusted_host_follows_header (f : forwardedRequest) :
  trusted_view IP_String url_reparse f ->
  (GetTrustedHost f).1
  = if IsBehindProxy f
    then if is_empty (http.Header_Get (http.Header_of (Request f)) "X-Forwarded-Host")
         then http.Host (Request f)
         else http.Header_Get (http.Header_of (Request f)) "X-Forwarded-Host"
    else http.Host (Request f).
Proof.
  intros Hv. apply trusted_view_agrees in Hv.
  destruct (GetTrustedHost_ok IP_String url_reparse f Hv) as (-> & _). reflexivity.
Qed.

(** X16: [GetTrustedURL] gives the URL of the raw request, as read back
    from its text, with the trusted host and the trusted protocol in the
    place of its host and scheme; path and query are as they were. *)
Theorem trusted_url_shape (f : forwardedRequest) (u0 : url.URL) :
  trusted_view IP_String url_reparse f ->
  url_reparse (http.URL (Request f)) = Some u0 ->
  exists u f',
    GetTrustedURL url_reparse f = Returns (u, f')
    /\ url.Host u = (GetTrustedHost f).1
    /\ url.Scheme u = (GetTrustedProto f).1
    /\ url.Path u = url.Path u0
    /\ url.RawQuery u = url.RawQuery u0.
Proof.
  intros Hv Hre. apply trusted_view_agrees in Hv.
  destruct (GetTrustedURL_ok IP_String url_reparse f u0 Hv Hre) as (f' & HU & _ & _).
  destruct (GetTrustedHost_ok IP_String url_reparse f Hv) as (Hh & _ & _).
  destruct (GetTrustedProto_ok IP_String url_reparse f Hv) as (Hp & _ & _).
  exists (url_of f u0), f'. rewrite Hh, Hp. repeat split. exact HU.
Qed.

(** X17: while the view has no URL in its cache and the text of the raw
    URL cannot be read back, [GetTrustedURL] panics (it writes to the nil
    URL that the parser hands out), and so do [BuildRequestForForward]
    and, with no trusted request in the cache, [GetTrustedRequest]. *)
Theorem unreadable_url_panics (stripForwardedIPs : bool) (f : forwardedRequest) :
  trustedURL f = None ->
  url_reparse (http.URL (Request f)) = None ->
  GetTrustedURL url_reparse f = Panics
  /\ BuildRequestForForward IP_String url_reparse stripForwardedIPs f = Panics
  /\ (trustedRequest f = None -> GetTrustedRequest IP_String url_reparse f = Panics).
Proof.
  intros Hu Hre.
  assert (forall g, trustedURL g = None -> Request g = Request f ->
                    GetTrustedURL url_reparse g = Panics) as HP.
  { intros g Hg Hr. unfold GetTrustedURL. rewrite Hg, Hr, Hre.
    destruct (GetTrustedHost g). reflexivity. }
  pose proof (GetTrustedHost_frame f) as [(A1 & _) _].
  pose proof (GetTrustedHost_others f) as (_ & O1 & _).
  split; [apply HP; auto|]. split.
  - unfold BuildRequestForForward.
    destruct (GetTrustedHost f) as [h f1]. cbn [snd] in *.
    rewrite HP by congruence. reflexivity.
  - intros Hr. unfold GetTrustedRequest. rewrite Hr.
    destruct (GetTrustedHost f) as [h f1]. cbn [snd] in *.
    rewrite HP by congruence. reflexivity.
Qed.

Lemma forward_headers_same_inputs (strip : bool) (f f' : forwardedRequest) :
  same_inputs f f' ->
  forward_headers IP_String strip f' = forward_headers IP_String strip f.
Proof.
  intros H. pose proof H as (A1 & A2 & A3 & A4).
  unfold forward_headers, forwarded_texts.
  rewrite (same_inputs_host _ _ H), (same_inputs_proto _ _ H), A1, A3, A4. reflexivity.
Qed.

(** X18: the request that [BuildRequestForForward] builds does not depend
    on the methods that were called on the view before: after a call of
    any method it builds the same request. *)
Theorem forward_request_unaffected_by_calls (stripForwardedIPs : bool) (m : method)
    (f f' : forwardedRequest) (u0 : url.URL) :
  trusted_view IP_String url_reparse f ->
  url_reparse (http.URL (Request f)) = Some u0 ->
  after IP_String url_reparse m f = Returns f' ->
  fst <$> BuildRequestForForward IP_String url_reparse stripForwardedIPs f'
  = fst <$> BuildRequestForForward IP_String url_reparse stripForwardedIPs f.
Proof.
  intros Hv Hre Hcall.
  pose proof (view_after _ _ m f f' Hv Hcall) as Hv'.
  apply trusted_view_agrees in Hv, Hv'.
  pose proof (after_frame _ _ _ _ _ Hcall) as [Hs _]. pose proof Hs as (A1 & _).
  destruct (BuildRequestForForward_ok IP_String url_reparse stripForwardedIPs f u0 Hv Hre)
    as (g & -> & _).
  destruct (BuildRequestForForward_ok IP_String url_reparse stripForwardedIPs f' u0 Hv')
    as (g' & -> & _).
  { rewrite A1. exact Hre. }
  cbn. rewrite (same_inputs_url _ _ _ Hs), (same_inputs_host _ _ Hs),
    (forward_headers_same_inputs _ _ _ Hs), A1. reflexivity.
Qed.

Variable ParseIP : string -> IP.

Lemma parsed_blank_first (texts : list string) :
  (forall s, ParseIP (String " " s) = nil_IP) ->
  flat_map (parsed ParseIP) (map (String " ") texts) = [].
Proof.
  intros Hb. induction texts as [|t ts IH]; cbn [map flat_map]; [reflexivity|].
  rewrite IH. unfold parsed. rewrite Hb. reflexivity.
Qed.

(** X19: the [X-Forwarded-For] header that [BuildRequestForForward]
    writes is not read back in full by [ExtractForwardedForIPs]: when
    [net.ParseIP] takes no text that begins with a blank, and the texts of
    the addresses hold no comma, only the first address of the header is
    found (if its text parses), whatever the number of addresses in it. *)
Theorem extract_of_forward_header (f : forwardedRequest) (u0 : url.URL) :
  trusted_view IP_String url_reparse f ->
  url_reparse (http.URL (Request f)) = Some u0 ->
  (forall s, ParseIP (String " " s) = nil_IP) ->
  Forall (fun ip => has_byte "," (IP_String ip) = false)
         (GetTrustedForwardedFor f ++ [GetTrustedRemoteAddr f]) ->
  (fun r => ExtractForwardedForIPs ParseIP (http.Header_of r.1))
    <$> BuildRequestForForward IP_String url_reparse false f
  = Returns (parsed ParseIP
               (IP_String (default (GetTrustedRemoteAddr f)
                             (head (GetTrustedForwardedFor f))))).
Proof.
  intros Hv Hre Hb Hc. apply trusted_view_agrees in Hv.
  destruct (BuildRequestForForward_ok IP_String url_reparse false f u0 Hv Hre)
    as (g & -> & _).
  cbn. f_equal. rewrite ExtractForwardedForIPs_flat.
  unfold http.Header_Values, forward_headers.
  rewrite canonical_forwarded_for.
  rewrite !lookup_insert_ne by discriminate. rewrite lookup_insert_eq.
  cbn [default id flat_map]. rewrite app_nil_r. unfold forwarded_texts.
  unfold GetTrustedForwardedFor, GetTrustedRemoteAddr in *.
  assert (Forall (fun s => has_byte "," s = false)
            (map IP_String (trustedForwardedFor f) ++ [IP_String (trustedRemoteAddr f)])) as Hc'.
  { change [IP_String (trustedRemoteAddr f)] with (map IP_String [trustedRemoteAddr f]).
    rewrite <- map_app. apply Forall_map. exact Hc. }
  destruct (trustedForwardedFor f) as [|first rest]; cbn [map app head default] in *.
  - rewrite Split_Join_comma_blank by exact Hc'. cbn [map flat_map].
    rewrite app_nil_r. reflexivity.
  - rewrite Split_Join_comma_blank by exact Hc'. cbn [flat_map].
    rewrite parsed_blank_first by exact Hb. rewrite app_nil_r. reflexivity.
Qed.

End Values.

Lemma trusted_host_follows_header_witness :
  (GetTrustedHost forwarded_host_view).1 = "shop.example"%string.
Proof.
  rewrite (trusted_host_follows_header dotted.IP_String Some forwarded_host_view).
  - vm_compute. reflexivity.
  - apply view_resolved.
Defined.

Lemma trusted_url_shape_witness :
  exists u f',
    GetTrustedURL Some wss_view = Returns (u, f')
    /\ url.Scheme u = "https"%string
    /\ url.Path u = "/"%string.
Proof.
  destruct (trusted_url_shape dotted.IP_String Some wss_view root_url)
    as (u & f' & HU & _ & Hs & Hp & _).
  - apply view_resolved.
  - reflexivity.
  - exists u, f'. split; [exact HU|]. split; [|exact Hp].
    rewrite Hs. vm_compute. reflexivity.
Defined.

Lemma unreadable_url_panics_witness :
  GetTrustedURL reparse_no_blank blank_host_view = Panics
  /\ BuildRequestForForward dotted.IP_String reparse_no_blank true blank_host_view = Panics.
Proof.
  destruct (unreadable_url_panics dotted.IP_String reparse_no_blank true blank_host_view)
    as (H1 & H2 & _).
  - reflexivity.
  - vm_compute. reflexivity.
  - split; assumption.
Defined.

Lemma forward_request_unaffected_by_calls_witness :
  exists f',
    after dotted.IP_String Some CallGetTrustedRequest two_hop_view = Returns f'
    /\ fst <$> BuildRequestForForward dotted.IP_String Some false f'
       = fst <$> BuildRequestForForward dotted.IP_String Some false two_hop_view.
Proof.
  destruct (after dotted.IP_String Some CallGetTrustedRequest two_hop_view) as [f'|] eqn:E;
    [|vm_compute in E; discriminate].
  exists f'. split; [reflexivity|].
  apply (forward_request_unaffected_by_calls dotted.IP_String Some false
           CallGetTrustedRequest two_hop_view f' root_url).
  - apply view_resolved.
  - reflexivity.
  - exact E.
Defined.

Lemma extract_of_forward_header_witness :
  (fun r => ExtractForwardedForIPs dotted.ParseIP (http.Header_of r.1))
    <$> BuildRequestForForward dotted.IP_String Some false two_hop_view
  = Returns [dotted.ParseIP "7.7.7.7"].
Proof.
  rewrite (extract_of_forward_header dotted.IP_String Some dotted.ParseIP two_hop_view root_url).
  - vm_compute. reflexivity.
  - apply view_resolved.
  - reflexivity.
  - intros s. reflexivity.
  - repeat constructor; vm_compute; reflexivity.
Defined.

(** ** http.go and the entry points built on it *)

Section Entry.

Variable ParseIP : string -> IP.
Variable ResolveTCPAddr : string -> string -> TCPAddr + string.
Variable IP_String : IP -> string.
Variable url_reparse : url.URL -> option url.URL.

(** X20: a peer that is in no prefix of the whitelist is not believed:
    [WithTrustedProxyContext] runs the next handler with a view that is
    not behind a proxy, whose trusted remote is the peer and whose rest is
    the whole forwarded chain, and whose trusted host and protocol are
    those of the raw request and its connection, whatever
    [X-Forwarded-Host] and [X-Forwarded-Proto] the request carries. *)
Theorem untrusted_peer_is_not_believed (W : CIDRWhitelist) (next : Handler)
    (r : http.Request) (view0 : option forwardedRequest) (raddr : TCPAddr) :
  ResolveTCPAddr "tcp"%string (http.RemoteAddr r) = inl raddr ->
  ~ Spec.in_some_prefix W (TCPAddr_IP raddr) ->
  exists view,
    part_001.WithTrustedProxyContext ParseIP ResolveTCPAddr (UseCIDRWhitelist W) next r view0
    = EvResolve (TCPAddr_IP raddr) (ExtractForwardedForIPs ParseIP (http.Header_of r))
      :: next r (Some view)
    /\ IsBehindProxy view = false
    /\ GetTrustedRemoteAddr view = TCPAddr_IP raddr
    /\ GetTrustedForwardedFor view = ExtractForwardedForIPs ParseIP (http.Header_of r)
    /\ (GetTrustedHost view).1 = http.Host r
    /\ (GetTrustedProto view).1
       = match http.TLS r with Some _ => "https"%string | None => "http"%string end.
Proof.
  intros Hr Hun.
  unfold part_001.WithTrustedProxyContext, HTTPHandler_SetTrustedProxyContext,
    http.Clone, new_view.
  cbn [Request Extractor]. rewrite Hr. cbn [Resolve].
  rewrite (cidr_resolve_of_walk W _ _
             (nil_IP, TCPAddr_IP raddr, ExtractForwardedForIPs ParseIP (http.Header_of r)))
    by (apply Spec.walk_untrusted; exact Hun).
  cbn [fst snd]. eexists. split; [reflexivity|].
  repeat split.
Qed.

(** X21: [WithTrustedRequest] (and [HTTPHandler.ServeHTTP], which it is)
    hands the next handler the trusted request of the view: its remote
    address is the text of the trusted remote that the resolver returned
    (an address without a port), its host is the trusted host, and the
    view in its context holds that request and the result of the
    resolver. *)
Theorem trusted_request_is_passed_on (resolver : IPExtractor) (next : Handler)
    (r : http.Request) (view0 : option forwardedRequest) (raddr : TCPAddr)
    (proxy trusted : IP) (rest : list IP) (u0 : url.URL) :
  ResolveTCPAddr "tcp"%string (http.RemoteAddr r) = inl raddr ->
  Resolve resolver (TCPAddr_IP raddr) (ExtractForwardedForIPs ParseIP (http.Header_of r))
  = Returns (proxy, trusted, rest, None) ->
  url_reparse (http.URL r) = Some u0 ->
  exists treq view,
    part_001.WithTrustedRequest ParseIP ResolveTCPAddr IP_String url_reparse
      resolver next r view0
    = EvResolve (TCPAddr_IP raddr) (ExtractForwardedForIPs ParseIP (http.Header_of r))
      :: next treq (Some view)
    /\ http.RemoteAddr treq = IP_String trusted
    /\ http.Host treq = (GetTrustedHost (set_resolution (new_view r) proxy trusted rest)).1
    /\ http.Method treq = http.Method r
    /\ GetTrustedRequest IP_String url_reparse view = Returns (treq, view)
    /\ GetProxyIP view = proxy
    /\ GetTrustedRemoteAddr view = trusted
    /\ GetTrustedForwardedFor view = rest.
Proof.
  intros Hr HR Hre.
  unfold part_001.WithTrustedRequest, HTTPHandler_ServeHTTP. cbn [Next].
  unfold HTTPHandler_SetTrustedProxyContext, http.Clone.
  cbn [Request new_view Extractor]. rewrite Hr, HR.
  set (fr := set_resolution (new_view r) proxy trusted rest).
  pose proof (caches_agree_new IP_String url_reparse r proxy trusted rest) as Hag.
  fold fr in Hag.
  destruct (GetTrustedRequest_ok IP_String url_reparse fr u0 Hag Hre) as (f' & HT & _ & Hs).
  destruct (GetTrustedHost_ok IP_String url_reparse fr Hag) as (Hh & _ & _).
  pose proof (GetTrustedRequest_frame _ _ _ _ _ HT) as (_ & Hc).
  unfold serve_trusted. rewrite HT.
  exists (request_of IP_String fr u0), f'. split; [reflexivity|].
  destruct Hs as (A1 & A2 & A3 & A4).
  split; [reflexivity|]. split; [symmetry; exact Hh|]. split; [reflexivity|].
  split; [unfold GetTrustedRequest; rewrite Hc; reflexivity|].
  unfold GetProxyIP, GetTrustedRemoteAddr, GetTrustedForwardedFor.
  rewrite A2, A3, A4. repeat split.
Qed.

(** X22: [HTTPHandler.SetTrustedProxyContext] runs the next handler
    exactly when the peer address resolves and the resolver returns
    without error; and whenever it answers with an error, the status is
    500 and the body is the message of the resolution of the address or
    of the resolver, whatever [ErrorHandler] the handler carries. *)
Theorem next_runs_iff_resolved (h : HTTPHandler) (r : http.Request) :
  ((exists view,
       EvServe r view ∈ HTTPHandler_SetTrustedProxyContext ParseIP ResolveTCPAddr h r observe)
   <-> exists raddr proxy trusted rest,
         ResolveTCPAddr "tcp"%string (http.RemoteAddr r) = inl raddr
         /\ Resolve (Extractor h) (TCPAddr_IP raddr)
              (ExtractForwardedForIPs ParseIP (http.Header_of r))
            = Returns (proxy, trusted, rest, None))
  /\ (forall body code,
        EvError body code ∈ HTTPHandler_SetTrustedProxyContext ParseIP ResolveTCPAddr h r observe ->
        code = http.StatusInternalServerError
        /\ (ResolveTCPAddr "tcp"%string (http.RemoteAddr r) = inr body
            \/ exists raddr proxy trusted rest,
                 ResolveTCPAddr "tcp"%string (http.RemoteAddr r) = inl raddr
                 /\ Resolve (Extractor h) (TCPAddr_IP raddr)
                      (ExtractForwardedForIPs ParseIP (http.Header_of r))
                    = Returns (proxy, trusted, rest, Some body))).
Proof.
  unfold HTTPHandler_SetTrustedProxyContext, http.Clone, DefaultErrorHandler, http_Error,
    observe.
  cbn [Request new_view].
  destruct (ResolveTCPAddr "tcp"%string (http.RemoteAddr r)) as [raddr | err].
  - destruct (Resolve (Extractor h) (TCPAddr_IP raddr)
                (ExtractForwardedForIPs ParseIP (http.Header_of r)))
      as [[[[p t] rest] [e|]]|] eqn:ER.
    + split; [split|].
      * intros (view & Hin). apply elem_of_cons in Hin as [Hin | Hin]; [discriminate|].
        apply list_elem_of_singleton in Hin. discriminate.
      * intros (a & p' & t' & rest' & Ha & HR). injection Ha as <-.
        rewrite ER in HR. discriminate.
      * intros body code Hin. apply elem_of_cons in Hin as [Hin | Hin]; [discriminate|].
        apply list_elem_of_singleton in Hin. injection Hin as -> ->.
        split; [reflexivity|]. right. eauto 10.
    + split; [split|].
      * intros _. eauto 10.
      * intros _. eexists. right. left.
      * intros body code Hin. apply elem_of_cons in Hin as [Hin | Hin]; [discriminate|].
        apply list_elem_of_singleton in Hin. discriminate.
    + split; [split|].
      * intros (view & Hin). apply elem_of_cons in Hin as [Hin | Hin]; [discriminate|].
        apply list_elem_of_singleton in Hin. discriminate.
      * intros (a & p' & t' & rest' & Ha & HR). injection Ha as <-.
        rewrite ER in HR. discriminate.
      * intros body code Hin. apply elem_of_cons in Hin as [Hin | Hin]; [discriminate|].
        apply list_elem_of_singleton in Hin. discriminate.
  - split; [split|].
    + intros (view & Hin). apply list_elem_of_singleton in Hin. discriminate.
    + intros (a & p' & t' & rest' & Ha & _). discriminate.
    + intros body code Hin. apply list_elem_of_singleton in Hin. injection Hin as -> ->.
      split; [reflexivity | left; reflexivity].
Qed.

End Entry.

Lemma untrusted_peer_is_not_believed_witness :
  exists view,
    part_001.WithTrustedProxyContext dotted.ParseIP literal.ResolveTCPAddr
      (UseCIDRWhitelist {| whitelist := [ten_slash_8] |}) observe spoofing_request None
    = [EvResolve (dotted.ParseIP "203.0.113.9") [dotted.ParseIP "10.0.0.7"];
       EvServe spoofing_request (Some view)]
    /\ (GetTrustedHost view).1 = "example.org"%string
    /\ (GetTrustedProto view).1 = "http"%string.
Proof.
  destruct (untrusted_peer_is_not_believed dotted.ParseIP literal.ResolveTCPAddr
              {| whitelist := [ten_slash_8] |} observe spoofing_request None
              {| TCPAddr_IP := dotted.ParseIP "203.0.113.9"; Port := 4711 |})
    as (view & Ht & _ & _ & _ & Hh & Hp).
  - vm_compute. reflexivity.
  - intros (n & Hn & Hc). apply list_elem_of_singleton in Hn. subst n.
    vm_compute in Hc. discriminate.
  - exists view. split; [exact Ht|]. split; [exact Hh | exact Hp].
Defined.

Lemma trusted_request_is_passed_on_witness :
  exists treq view,
    part_001.WithTrustedRequest dotted.ParseIP literal.ResolveTCPAddr dotted.IP_String Some
      (UseCIDRWhitelist {| whitelist := [ten_slash_8] |}) observe proxied_request None
    = [EvResolve (dotted.ParseIP "10.0.0.1")
         [dotted.ParseIP "7.7.7.7"; dotted.ParseIP "1.2.3.4"];
       EvServe treq (Some view)]
    /\ http.RemoteAddr treq = "1.2.3.4"%string
    /\ GetTrustedForwardedFor view = [dotted.ParseIP "7.7.7.7"].
Proof.
  destruct (trusted_request_is_passed_on dotted.ParseIP literal.ResolveTCPAddr
              dotted.IP_String Some
              (UseCIDRWhitelist {| whitelist := [ten_slash_8] |}) observe proxied_request None
              {| TCPAddr_IP := dotted.ParseIP "10.0.0.1"; Port := 4711 |}
              (dotted.ParseIP "10.0.0.1") (dotted.ParseIP "1.2.3.4")
              [dotted.ParseIP "7.7.7.7"] root_url)
    as (treq & view & Ht & Hra & _ & _ & _ & _ & _ & Hrest).
  - vm_compute. reflexivity.
  - vm_compute. reflexivity.
  - reflexivity.
  - exists treq, view. split; [exact Ht|]. split; [|exact Hrest].
    rewrite Hra. vm_compute. reflexivity.
Defined.

(** ** trustedproxy.go: the entry point with the plain parse *)

(** X23: [WithTrustedProxyContext] of trustedproxy.go with a whitelist
    answers no request with an error; and for a peer address that
    [net.ParseIP] does not take (as it takes no text with a port), nil not
    being in the whitelist, it runs the next handler with a view that is
    not behind a proxy, whose trusted remote is nil and whose rest is the
    whole forwarded chain: no forwarded address is believed. *)
Theorem plain_parse_entry_believes_nothing (ParseIP : string -> IP) (W : CIDRWhitelist)
    (next : Handler) (r : http.Request) (view0 : option forwardedRequest) :
  ParseIP (http.RemoteAddr r) = nil_IP ->
  ~ Spec.in_some_prefix W nil_IP ->
  exists view,
    trustedproxy_go.WithTrustedProxyContext ParseIP (UseCIDRWhitelist W) next r view0
    = EvResolve nil_IP (ExtractForwardedForIPs ParseIP (http.Header_of r))
      :: next r (Some view)
    /\ IsBehindProxy view = false
    /\ GetTrustedRemoteAddr view = nil_IP
    /\ GetTrustedForwardedFor view = ExtractForwardedForIPs ParseIP (http.Header_of r).
Proof.
  intros Hnil Hun.
  unfold trustedproxy_go.WithTrustedProxyContext, http.Clone. rewrite Hnil. cbn [Resolve].
  rewrite (cidr_resolve_of_walk W _ _
             (nil_IP, nil_IP, ExtractForwardedForIPs ParseIP (http.Header_of r)))
    by (apply Spec.walk_untrusted; exact Hun).
  cbn [fst snd]. eexists. split; [reflexivity|]. repeat split.
Qed.

Lemma plain_parse_entry_believes_nothing_witness :
  exists view,
    trustedproxy_go.WithTrustedProxyContext dotted.ParseIP
      (UseCIDRWhitelist {| whitelist := [ten_slash_8] |}) observe proxied_request None
    = [EvResolve nil_IP [dotted.ParseIP "7.7.7.7"; dotted.ParseIP "1.2.3.4"];
       EvServe proxied_request (Some view)]
    /\ IsBehindProxy view = false
    /\ GetTrustedRemoteAddr view = nil_IP.
Proof.
  destruct (plain_parse_entry_believes_nothing dotted.ParseIP
              {| whitelist := [ten_slash_8] |} observe proxied_request None)
    as (view & Ht & Hb & Hr & _).
  - vm_compute. reflexivity.
  - intros (n & Hn & Hc). apply list_elem_of_singleton in Hn. subst n.
    vm_compute in Hc. discriminate.
  - exists view. split; [exact Ht|]. split; [exact Hb | exact Hr].
Defined.
